(** * NetScan: the TCP-connect prober, the port scheduler and the host sweeper

    A shallow embedding of [NetScan.scan_port], [NetScan.scan_ports] and
    [NetScan.scan_network] (netscan.py).  The socket layer is an explicit
    world: a table of the sockets created and not yet passed to [close],
    and the trace of the calls made on them.  What the network answers is an oracle, [Net].  Python code that can
    raise runs in a state-and-exception monad, so that a handler sees the
    world as the failed call left it.

    Three choices bound what the model says.  The network answers a
    connection attempt as a function of host, port, timeout and the attempts
    made before on the same socket.  A socket leaves the table of the world
    through [close] only, which does not raise: what the interpreter does
    with a socket object nothing refers to any more is not represented.
    The thread pool is represented by the order in which its futures
    complete, every property being stated for all such orders; how many
    callables run at the same instant is not represented. *)

From Stdlib Require Import ZArith QArith Lia Ascii String.
From stdpp Require Import gmap strings list fin_maps pretty sorting.

Open Scope Z_scope.

(** ** Exceptions *)

(** The exception classes the socket layer and the builtins used here raise.
    All of them derive from [Exception]; [gaierror], [herror] and
    [timeout] derive from [OSError], which [socket.error] is an alias of.
    Asynchronous interrupts ([KeyboardInterrupt], [SystemExit]) are delivered
    by the interpreter, not by the calls modelled here, and are left out. *)
Inductive exn : Type :=
| gaierror
| herror
| timeout_error
| OSError (errno : Z)
| ValueError
| OverflowError
| TypeError
| UnicodeError
| IndexError.

Global Instance exn_eq_dec : EqDecision exn.
Proof. solve_decision. Defined.

Definition is_gaierror (e : exn) : bool :=
  match e with gaierror => true | _ => false end.

(** [socket.error] is [OSError]. *)
Definition is_socket_error (e : exn) : bool :=
  match e with
  | gaierror | herror | timeout_error | OSError _ => true
  | _ => false
  end.

Definition is_Exception (e : exn) : bool := true.

Definition EBADF : Z := 9.

(** ** The world *)

Inductive event : Type :=
| Ev_socket (fd : nat)
| Ev_settimeout (fd : nat) (timeout : Q)
| Ev_connect_ex (fd : nat) (host : string) (port : Z)
| Ev_close (fd : nat).

(** The state of a socket object: the timeout set on it ([None]: blocking
    mode, the state of a fresh socket) and the addresses on which a
    connection was attempted on it so far, oldest first. *)
Record sock_state : Type := mkSock {
  sock_timeout : option Q;
  sock_attempts : list (string * Z)
}.

(** [socks] holds the sockets that were created and on which [close] has
    not been called.  [trace] lists the socket calls made so far, oldest
    first. *)
Record World : Type := mkWorld {
  next_fd : nat;
  socks : gmap nat sock_state;
  trace : list event
}.

(** The socket was created and [close] has not been called on it. *)
Definition is_open (fd : nat) (w : World) : Prop := is_Some (socks w !! fd).

(** What the environment answers. *)
Record Net : Type := mkNet {
  (** the exception [socket.socket(AF_INET, SOCK_STREAM)] raises, if any *)
  net_socket : option exn;
  (** the exception raised while the host part of the address is
      converted and resolved, if any ([gaierror] for an unknown name) *)
  net_resolve : string → option exn;
  (** the error indicator of the C-level connect, given the attempts made
      before on the same socket, the address and the timeout in force:
      0 when the connection is established, an errno otherwise (refused,
      timed out, unreachable, or the state an earlier failure left the
      socket in) *)
  net_connect : list (string * Z) → string → Z → option Q → Z
}.

(** ** The monad *)

Inductive outcome (A : Type) : Type :=
| Ret (a : A)
| Raise (e : exn).
Arguments Ret {A} a.
Arguments Raise {A} e.

Global Instance outcome_eq_dec {A} `{EqDecision A} : EqDecision (outcome A).
Proof. solve_decision. Defined.

Abbreviation M A := (World → outcome A * World).

Definition ret {A} (a : A) : M A := λ w, (Ret a, w).

Definition raise {A} (e : exn) : M A := λ w, (Raise e, w).

Definition bind {A B} (c : M A) (k : A → M B) : M B :=
  λ w, match c w with
       | (Ret a, w1) => k a w1
       | (Raise e, w1) => (Raise e, w1)
       end.

(** [try: c except e: h e]; the handler runs in the world the failed call
    left behind. *)
Definition try_except {A} (c : M A) (h : exn → M A) : M A :=
  λ w, match c w with
       | (Ret a, w1) => (Ret a, w1)
       | (Raise e, w1) => h e w1
       end.

Declare Scope py_scope.
Delimit Scope py_scope with py.
Notation "x <- c ;; k" := (bind c (λ x, k))
  (at level 100, c at next level, right associativity) : py_scope.
Notation "c ;;; k" := (bind c (λ _, k))
  (at level 100, right associativity) : py_scope.
Open Scope py_scope.

(** ** The socket calls *)

(** [socket.socket(socket.AF_INET, socket.SOCK_STREAM)] *)
Definition socket_socket (net : Net) : M nat :=
  λ w, match net_socket net with
       | Some e => (Raise e, w)
       | None =>
           let fd := next_fd w in
           (Ret fd, mkWorld (S fd) (<[fd := mkSock None []]> (socks w))
                            (trace w ++ [Ev_socket fd]))
       end.

(** The interpreter keeps a timeout as a signed 64-bit count of
    nanoseconds: the least and the largest number of seconds that fit. *)
Definition TIMEOUT_MIN : Q := -9223372036854775808 # 1000000000.
Definition TIMEOUT_MAX : Q := 9223372036854775807 # 1000000000.

(** What [settimeout] raises for a timeout, if anything: [OverflowError]
    when the value does not fit the C time type, [ValueError] when it is
    negative.  (The floats that are not numbers of seconds lie outside [Q]:
    an infinite one is refused as the values above [TIMEOUT_MAX] are, and
    NaN with [ValueError].  The bounds are those of exact arithmetic; for a
    float within a few microseconds of one of them the rounding of the
    conversion decides, also between the two classes.) *)
Definition timeout_refused (timeout : Q) : option exn :=
  if Qle_bool TIMEOUT_MIN timeout && Qle_bool timeout TIMEOUT_MAX then
    if Qle_bool 0 timeout then None else Some ValueError
  else Some OverflowError.

(** [sock.settimeout(timeout)]; zero puts the socket in non-blocking
    mode. *)
Definition settimeout (sock : nat) (timeout : Q) : M unit :=
  λ w, match socks w !! sock with
       | None => (Raise (OSError EBADF), w)
       | Some st =>
           let w1 := mkWorld (next_fd w) (socks w)
                             (trace w ++ [Ev_settimeout sock timeout]) in
           match timeout_refused timeout with
           | Some e => (Raise e, w1)
           | None =>
               (Ret tt,
                mkWorld (next_fd w1)
                        (<[sock := mkSock (Some timeout) (sock_attempts st)]>
                           (socks w1))
                        (trace w1))
           end
       end.

(** [sock.connect_ex((host, port))]: errors of the C-level connect come
    back as the returned indicator; a host that cannot be resolved and a
    port outside 0-65535 raise.  What the connect reports depends on what
    was attempted on this socket before; the attempt is added to the
    record of the socket. *)
Definition connect_ex (net : Net) (sock : nat) (host : string) (port : Z)
  : M Z :=
  λ w, match socks w !! sock with
       | None => (Raise (OSError EBADF), w)
       | Some st =>
           let w1 := mkWorld (next_fd w) (socks w)
                             (trace w ++ [Ev_connect_ex sock host port]) in
           match net_resolve net host with
           | Some e => (Raise e, w1)
           | None =>
               if (port <? 0) || (65535 <? port)
               then (Raise OverflowError, w1)
               else
                 (Ret (net_connect net (sock_attempts st) host port
                                   (sock_timeout st)),
                  mkWorld (next_fd w1)
                          (<[sock := mkSock (sock_timeout st)
                                       (sock_attempts st ++ [(host, port)])]>
                             (socks w1))
                          (trace w1))
           end
       end.

(** [sock.close()] takes the socket out of the table; it is taken not to
    raise. *)
Definition close (sock : nat) : M unit :=
  λ w, (Ret tt, mkWorld (next_fd w) (delete sock (socks w))
                        (trace w ++ [Ev_close sock])).

(** ** NetScan.scan_port *)

Definition DEFAULT_TIMEOUT : Q := 2.
Definition MAX_THREADS : Z := 100.

Definition scan_port (net : Net) (host : string) (port : Z) (timeout : Q)
  : M bool :=
  try_except
    (sock <- socket_socket net ;;
     settimeout sock timeout ;;;
     result <- connect_ex net sock host port ;;
     close sock ;;;
     ret (result =? 0))
    (λ e, if is_gaierror e then ret false
          else if is_socket_error e then ret false
          else if is_Exception e then ret false
          else raise e).

(** ** The executor *)

(** [ThreadPoolExecutor(max_workers=n)] refuses a pool without workers. *)
Definition ThreadPoolExecutor (max_workers : Z) : M unit :=
  if max_workers <=? 0 then raise ValueError else ret tt.

(** The callables handed to [executor.submit], in submission order; a
    future is named by its position in that list.  [as_completed] yields
    every future once, in the order the pool finishes them: [order] is that
    order, chosen by the scheduler.  A callable runs from its first socket
    call to its return without the world being touched by another one; the
    outcome kept in the future is the value returned or the exception that
    escaped. *)
Fixpoint as_completed {A} (tasks : list (M A)) (order : list nat)
  : World → list (nat * outcome A) * World :=
  match order with
  | [] => λ w, ([], w)
  | i :: rest =>
      λ w, match tasks !! i with
           | None => as_completed tasks rest w
           | Some task =>
               let '(o, w1) := task w in
               let '(os, w2) := as_completed tasks rest w1 in
               ((i, o) :: os, w2)
           end
  end.

(** [order] names every submitted future exactly once. *)
Definition completion_order (n : nat) (order : list nat) : Prop :=
  order ≡ₚ seq 0 n.

(** ** NetScan.scan_ports *)

(** The body of the [for future in as_completed(future_to_port)] loop:
    [results[port] = future.result()], and [results[port] = False] when
    [future.result()] re-raises what escaped the callable ([except
    Exception] catches every class of [exn]). *)
Definition record_result (future_to_port : list Z) (results : gmap Z bool)
    (completed : nat * outcome bool) : gmap Z bool :=
  let '(future, o) := completed in
  match future_to_port !! future with
  | None => results
  | Some port =>
      match o with
      | Ret b => <[port := b]> results
      | Raise _ => <[port := false]> results
      end
  end.

(** The body of [scan_ports] with the submitted callable as a parameter
    ([NetScan.scan_port] is looked up when the call is made). *)
Definition scan_ports_with (probe : Z → M bool) (ports : list Z)
    (threads : Z) (order : list nat) : M (gmap Z bool) :=
  ThreadPoolExecutor threads ;;;
  let future_to_port := ports in
  λ w, let '(completed, w1) := as_completed (probe <$> ports) order w in
       (Ret (foldl (record_result future_to_port) ∅ completed), w1).

Definition scan_ports (net : Net) (host : string) (ports : list Z)
    (timeout : Q) (threads : Z) (order : list nat) : M (gmap Z bool) :=
  scan_ports_with (λ port, scan_port net host port timeout)
                  ports threads order.

(** ** NetScan.scan_network *)

(** [for port in [80, 443, 22, 445]] on the one socket of [check_host];
    [Some ip] stands for the [return ip] inside the loop. *)
Fixpoint try_ports (net : Net) (sock : nat) (ip : string) (ports : list Z)
  : M (option string) :=
  match ports with
  | [] => ret None
  | port :: rest =>
      result <- connect_ex net sock ip port ;;
      if result =? 0
      then close sock ;;; ret (Some ip)
      else try_ports net sock ip rest
  end.

Definition burst_ports : list Z := [80; 443; 22; 445].

Definition check_host (net : Net) (timeout : Q) (ip : string)
  : M (option string) :=
  try_except
    (sock <- socket_socket net ;;
     settimeout sock timeout ;;;
     found <- try_ports net sock ip burst_ports ;;
     match found with
     | Some r => ret (Some r)
     | None => close sock ;;; ret None
     end)
    (λ _, ret None).

(** [[f"{network_prefix}.{i}" for i in range(1, 255)]] *)
Definition ips (network_prefix : string) : list string :=
  (λ i : Z, network_prefix +:+ "." +:+ pretty i) <$> seqZ 1 254.

(** [s.split(sep)] for a separator of one character. *)
Fixpoint split (sep : ascii) (s : string) : list string :=
  match s with
  | EmptyString => [EmptyString]
  | String c s' =>
      if Ascii.eqb c sep then EmptyString :: split sep s'
      else match split sep s' with
           | x :: xs => String c x :: xs
           | [] => [String c EmptyString]
           end
  end.

Definition digit_of (c : ascii) : option Z :=
  let n := Z.of_nat (nat_of_ascii c) in
  if (48 <=? n) && (n <=? 57) then Some (n - 48) else None.

Fixpoint int_digits (s : string) (acc : Z) : option Z :=
  match s with
  | EmptyString => Some acc
  | String c s' =>
      match digit_of c with
      | Some d => int_digits s' (10 * acc + d)
      | None => None
      end
  end.

(** [int(s)] on an optional sign followed by ASCII digits, [ValueError] on
    anything else (the blanks and underscores Python also accepts do not
    occur in the strings sorted here). *)
Definition int (s : string) : outcome Z :=
  let digits (s : string) (sign : Z) : outcome Z :=
    match s with
    | EmptyString => Raise ValueError
    | _ => match int_digits s 0 with
           | Some n => Ret (sign * n)
           | None => Raise ValueError
           end
    end in
  match s with
  | String "-"%char s' => digits s' (-1)
  | String "+"%char s' => digits s' 1
  | _ => digits s 1
  end.

(** [lambda x: int(x.split('.')[-1])] *)
Definition last_octet (x : string) : outcome Z :=
  match last (split "."%char x) with
  | Some part => int part
  | None => Raise IndexError
  end.

(** [sorted(l, key=key)]: the keys are computed first, one call per
    element; the sort is stable and ascending. *)
Fixpoint keyed {A} (key : A → outcome Z) (l : list A)
  : outcome (list (Z * A)) :=
  match l with
  | [] => Ret []
  | x :: l' =>
      match key x with
      | Raise e => Raise e
      | Ret k => match keyed key l' with
                 | Raise e => Raise e
                 | Ret kl => Ret ((k, x) :: kl)
                 end
      end
  end.

Fixpoint insert_keyed {A} (kx : Z * A) (l : list (Z * A)) : list (Z * A) :=
  match l with
  | [] => [kx]
  | ky :: l' => if kx.1 <=? ky.1 then kx :: ky :: l'
                else ky :: insert_keyed kx l'
  end.

Definition sort_keyed {A} (l : list (Z * A)) : list (Z * A) :=
  foldr insert_keyed [] l.

Definition sorted {A} (key : A → outcome Z) (l : list A) : outcome (list A) :=
  match keyed key l with
  | Raise e => Raise e
  | Ret kl => Ret ((sort_keyed kl).*2)
  end.

(** Truth value of what [check_host] returns: [None] and the empty string
    are false. *)
Definition truthy (result : option string) : bool :=
  match result with
  | None | Some EmptyString => false
  | Some _ => true
  end.

(** The [for future in as_completed(futures)] loop of [scan_network];
    [future.result()] re-raises what escaped the callable.  The progress
    lines the function prints are not part of the model. *)
Fixpoint collect_active (completed : list (nat * outcome (option string)))
    (active_hosts : list string) : outcome (list string) :=
  match completed with
  | [] => Ret active_hosts
  | (_, Raise e) :: _ => Raise e
  | (_, Ret result) :: rest =>
      collect_active rest
        (if truthy result then active_hosts ++ [default EmptyString result]
         else active_hosts)
  end.

Definition scan_network (net : Net) (network_prefix : string) (timeout : Q)
    (order : list nat) : M (list string) :=
  let ips := ips network_prefix in
  ThreadPoolExecutor 50 ;;;
  λ w, let '(completed, w1) :=
         as_completed (check_host net timeout <$> ips) order w in
       match collect_active completed [] with
       | Raise e => (Raise e, w1)
       | Ret active_hosts => (sorted last_octet active_hosts, w1)
       end.

(** ** A small network to run the code on *)

Definition w0 : World := mkWorld 3 ∅ [].

(** Two hosts listen: 10.0.0.7 on 443 and 10.0.0.2 on 22; an attempt on
    any other address is refused (errno 111); the name [no.such.host] does
    not resolve.  Sockets behave as on Linux: on a socket whose last
    attempt was refused the next call is answered [ECONNABORTED] (errno 103)
    without the address being tried, and the call after that is a new
    attempt. *)
Definition lan : Net :=
  mkNet None
    (λ h, if decide (h = "no.such.host") then Some gaierror else None)
    (λ earlier h p _,
       if Nat.odd (length earlier) then 103
       else if decide (h = "10.0.0.7") then (if p =? 443 then 0 else 111)
       else if decide (h = "10.0.0.2") then (if p =? 22 then 0 else 111)
       else 111).

(** ** Auxiliary notions used to state the properties *)

(** One of the attempts made in turn on the ports of a burst, on one
    socket on which [earlier] was attempted before, is answered 0. *)
Fixpoint any_open (net : Net) (ip : string) (tmo : option Q)
    (earlier : list (string * Z)) (ports : list Z) : bool :=
  match ports with
  | [] => false
  | port :: rest =>
      (net_connect net earlier ip port tmo =? 0)
      || any_open net ip tmo (earlier ++ [(ip, port)]) rest
  end.

(** The ports of a burst up to and including the first one on which the
    attempt is answered 0. *)
Fixpoint attempted (net : Net) (ip : string) (tmo : option Q)
    (earlier : list (string * Z)) (ports : list Z) : list Z :=
  match ports with
  | [] => []
  | port :: rest =>
      if net_connect net earlier ip port tmo =? 0 then [port]
      else port :: attempted net ip tmo (earlier ++ [(ip, port)]) rest
  end.

(** [check_host] finds [ip] alive. *)
Definition alive (net : Net) (timeout : Q) (ip : string) : bool :=
  match net_socket net, timeout_refused timeout, net_resolve net ip with
  | None, None, None => any_open net ip (Some timeout) [] burst_ports
  | _, _, _ => false
  end.

(** The candidates [check_host] finds alive, in the order of [ips]. *)
Definition live_hosts (net : Net) (network_prefix : string) (timeout : Q)
  : list string :=
  filter (λ ip, alive net timeout ip = true) (ips network_prefix).

(** The final octet of an address, 0 when it has none. *)
Definition octet (x : string) : Z :=
  match last_octet x with
  | Ret k => k
  | Raise _ => 0
  end.

(** What the loop of [scan_ports] writes for a finished future. *)
Definition recorded (o : outcome bool) : bool :=
  match o with
  | Ret b => b
  | Raise _ => false
  end.

(** ** Configuration *)

(** [COMMON_PORTS], in the order of the dict literal. *)
Definition COMMON_PORTS : list (Z * string) :=
  [(20, "FTP Data"); (21, "FTP Control"); (22, "SSH"); (23, "Telnet");
   (25, "SMTP"); (53, "DNS"); (80, "HTTP"); (110, "POP3"); (143, "IMAP");
   (443, "HTTPS"); (445, "SMB"); (3306, "MySQL"); (3389, "RDP");
   (5432, "PostgreSQL"); (5900, "VNC"); (6379, "Redis"); (8080, "HTTP Alt");
   (8443, "HTTPS Alt"); (27017, "MongoDB")].

(** [COMMON_PORTS.get(port, "Unknown")] *)
Definition service_name (port : Z) : string :=
  default "Unknown" ((list_to_map COMMON_PORTS : gmap Z string) !! port).

(** ** format_port_results *)

Definition nl : string := String "010" EmptyString.

(** [c * n] for a string of one character. *)
Fixpoint repeat_char (c : ascii) (n : nat) : string :=
  match n with
  | O => EmptyString
  | S n' => String c (repeat_char c n')
  end.

(** [f"{s:<width}"]: padded with blanks on the right, never cut. *)
Definition ljust (width : nat) (s : string) : string :=
  s +:+ repeat_char " " (width - String.length s).

(** [sorted(l)] on integers. *)
Definition sorted_ports (l : list Z) : list Z :=
  (sort_keyed ((λ port, (port, port)) <$> l)).*2.

(** One table row: [f"{port:<10}{service}"]. *)
Definition port_row (port : Z) : string :=
  ljust 10 (pretty port) +:+ service_name port.

(** What [format_port_results] prints, one string per call of [print].
    [results.items()] is read from a map without order: the only use of
    the open ports is through [sorted] and [len]. *)
Definition format_port_results (host : string) (results : gmap Z bool)
  : list string :=
  let open_ports := filter (λ kv : Z * bool, kv.2 = true) results in
  if decide (open_ports = ∅) then
    [nl +:+ "❌ No open ports found on " +:+ host +:+ nl]
  else
    [nl +:+ "✅ Open ports on " +:+ host +:+ ":" +:+ nl;
     "Port      Service";
     repeat_char "-" 40]
    ++ (port_row <$> sorted_ports (map_to_list open_ports).*1)
    ++ [nl +:+ "📊 Total: " +:+ pretty (size open_ports)
           +:+ " open port(s) found" +:+ nl].

(** ** The ports chosen by [main] for the [ports] command *)

(** ASCII blanks, as [str.isspace] has them. *)
Definition is_space (c : ascii) : bool :=
  let n := nat_of_ascii c in
  ((9 <=? n)%nat && (n <=? 13)%nat) || ((28 <=? n)%nat && (n <=? 32)%nat).

Fixpoint lstrip (s : string) : string :=
  match s with
  | EmptyString => EmptyString
  | String c s' => if is_space c then lstrip s' else s
  end.

Fixpoint rstrip (s : string) : string :=
  match s with
  | EmptyString => EmptyString
  | String c s' =>
      match rstrip s' with
      | EmptyString => if is_space c then EmptyString else String c EmptyString
      | r => String c r
      end
  end.

(** [s.strip()] *)
Definition strip (s : string) : string := rstrip (lstrip s).

(** Decimal digits with single underscores between them; [after_digit]
    tells whether the character before was a digit. *)
Fixpoint int_digits_us (s : string) (acc : Z) (after_digit : bool)
  : option Z :=
  match s with
  | EmptyString => if after_digit then Some acc else None
  | String c s' =>
      match digit_of c with
      | Some d => int_digits_us s' (10 * acc + d) true
      | None =>
          if Ascii.eqb c "_" && after_digit then int_digits_us s' acc false
          else None
      end
  end.

(** [int(s)] on ASCII text in full: blanks around, an optional sign,
    digits with single underscores between them; [ValueError] otherwise. *)
Definition int_text (s : string) : outcome Z :=
  let s := strip s in
  let '(sign, body) :=
    match s with
    | String "-"%char r => (-1, r)
    | String "+"%char r => (1, r)
    | _ => (1, s)
    end in
  match int_digits_us body 0 false with
  | Some n => Ret (sign * n)
  | None => Raise ValueError
  end.

(** [[f(x) for x in l]], left to right, stopping at the first exception. *)
Fixpoint map_outcome {A B} (f : A → outcome B) (l : list A)
  : outcome (list B) :=
  match l with
  | [] => Ret []
  | x :: l' =>
      match f x with
      | Raise e => Raise e
      | Ret y => match map_outcome f l' with
                 | Raise e => Raise e
                 | Ret ys => Ret (y :: ys)
                 end
      end
  end.

(** The [if args.list: ... elif args.range: ... else: ...] of [main]:
    the ports handed to [scan_ports], from the values of [--list] and
    [--range] ([None] when the option is absent).  In
    [start, end = map(int, args.range.split('-'))] every failure, of [int]
    or of the unpacking of other than two fields, is a [ValueError]. *)
Definition ports_argument (list_arg range_arg : option string)
  : outcome (list Z) :=
  if truthy list_arg then
    map_outcome (λ p, int_text (strip p))
                (split "," (default EmptyString list_arg))
  else if truthy range_arg then
    match split "-" (default EmptyString range_arg) with
    | [a; b] =>
        match int_text a with
        | Raise e => Raise e
        | Ret start =>
            match int_text b with
            | Raise e => Raise e
            | Ret end_ => Ret (seqZ start (end_ + 1 - start))
            end
        end
    | _ => Raise ValueError
    end
  else Ret (COMMON_PORTS.*1).

(** ** Further notions used to state the properties *)

(** [sep.join(l)] *)
Fixpoint join (sep : string) (l : list string) : string :=
  match l with
  | [] => EmptyString
  | [x] => x
  | x :: l' => x +:+ sep +:+ join sep l'
  end.

Fixpoint count_char (c : ascii) (s : string) : nat :=
  match s with
  | EmptyString => O
  | String c' s' => (if Ascii.eqb c' c then 1 else 0) + count_char c s'
  end.

Fixpoint all_chars (P : ascii → bool) (s : string) : bool :=
  match s with
  | EmptyString => true
  | String c s' => P c && all_chars P s'
  end.

Definition is_digit (c : ascii) : bool :=
  match digit_of c with
  | Some _ => true
  | None => false
  end.

(** The (host, port) pairs of the [connect_ex] calls in a trace. *)
Definition connects (evs : list event) : list (string * Z) :=
  omap (λ ev, match ev with
              | Ev_connect_ex _ host port => Some (host, port)
              | _ => None
              end) evs.

(** The connection attempts of one [check_host] on [ip]: none without a
    socket or with a refused timeout, the one on port 80 that raises when
    [ip] does not resolve, else those up to the first port that answers. *)
Definition burst_attempts (net : Net) (timeout : Q) (ip : string)
  : list (string * Z) :=
  match net_socket net, timeout_refused timeout with
  | None, None =>
      match net_resolve net ip with
      | Some _ => [(ip, 80)]
      | None =>
          (λ port, (ip, port))
            <$> attempted net ip (Some timeout) [] burst_ports
      end
  | _, _ => []
  end.

(** The descriptors of the [socket.socket] calls in a trace, and those of
    its [close] calls. *)
Definition created (evs : list event) : list nat :=
  omap (λ ev, match ev with
              | Ev_socket fd => Some fd
              | _ => None
              end) evs.

Definition closed (evs : list event) : list nat :=
  omap (λ ev, match ev with
              | Ev_close fd => Some fd
              | _ => None
              end) evs.

(** Every open descriptor was handed out before [next_fd]. *)
Definition fresh_fds (w : World) : Prop :=
  ∀ fd, is_open fd w → (fd < next_fd w)%nat.

(** * Properties *)

(** ** The probe *)

Lemma trace_snoc2 (l : list event) a b : (l ++ [a]) ++ [b] = l ++ [a; b].
Proof. by rewrite <- app_assoc. Qed.

(** When [settimeout] accepts a timeout. *)
Lemma timeout_refused_None (timeout : Q) :
  timeout_refused timeout = None ↔
  (0 <= timeout)%Q ∧ (timeout <= TIMEOUT_MAX)%Q.
Proof.
  unfold timeout_refused. split.
  - intros H.
    destruct (Qle_bool TIMEOUT_MIN timeout),
      (Qle_bool timeout TIMEOUT_MAX) eqn:Hhigh; cbn [andb] in H; try done.
    destruct (Qle_bool 0 timeout) eqn:Hzero; [|done].
    split; by apply Qle_bool_iff.
  - intros [Hzero Hfit].
    assert (Qle_bool TIMEOUT_MIN timeout = true) as ->.
    { apply Qle_bool_iff. by eapply Qle_trans; [|exact Hzero]. }
    by rewrite (proj2 (Qle_bool_iff _ _) Hzero),
      (proj2 (Qle_bool_iff _ _) Hfit).
Qed.

Lemma timeout_refused_positive (timeout : Q) :
  (0 < timeout)%Q → (timeout <= TIMEOUT_MAX)%Q →
  timeout_refused timeout = None.
Proof.
  intros Hpos Hfit. apply timeout_refused_None.
  split; [by apply Qlt_le_weak|done].
Qed.

Lemma timeout_refused_out (timeout : Q) :
  (timeout < 0)%Q ∨ (TIMEOUT_MAX < timeout)%Q →
  is_Some (timeout_refused timeout).
Proof.
  intros Hout. destruct (timeout_refused timeout) eqn:E; [by eexists|].
  apply timeout_refused_None in E as [Hz Hfit]. exfalso.
  destruct Hout as [H|H]; eapply Qlt_not_le; eauto.
Qed.

(** What one call of [scan_port] returns and does to the world, case by
    case. *)
Lemma scan_port_eq net host port timeout w :
  scan_port net host port timeout w =
  match net_socket net with
  | Some _ => (Ret false, w)
  | None =>
      let fd := next_fd w in
      match timeout_refused timeout with
      | Some _ =>
          (Ret false,
           mkWorld (S fd) (<[fd := mkSock None []]> (socks w))
             (trace w ++ [Ev_socket fd; Ev_settimeout fd timeout]))
      | None =>
          match net_resolve net host with
          | Some _ =>
              (Ret false,
               mkWorld (S fd) (<[fd := mkSock (Some timeout) []]> (socks w))
                 (trace w ++ [Ev_socket fd; Ev_settimeout fd timeout;
                              Ev_connect_ex fd host port]))
          | None =>
              if (port <? 0) || (65535 <? port) then
                (Ret false,
                 mkWorld (S fd)
                   (<[fd := mkSock (Some timeout) []]> (socks w))
                   (trace w ++ [Ev_socket fd; Ev_settimeout fd timeout;
                                Ev_connect_ex fd host port]))
              else
                (Ret (net_connect net [] host port (Some timeout) =? 0),
                 mkWorld (S fd) (delete fd (socks w))
                   (trace w ++ [Ev_socket fd; Ev_settimeout fd timeout;
                                Ev_connect_ex fd host port; Ev_close fd]))
          end
      end
  end.
Proof.
  unfold scan_port, try_except, bind, socket_socket.
  destruct (net_socket net) as [e|]; [by destruct e|].
  unfold settimeout; cbn [socks next_fd trace]. rewrite lookup_insert_eq.
  destruct (timeout_refused timeout) as [e|]; cbn [socks next_fd trace].
  { rewrite trace_snoc2. by destruct e. }
  unfold connect_ex; cbn [socks next_fd trace sock_attempts sock_timeout].
  rewrite lookup_insert_eq, insert_insert_eq, !trace_snoc2.
  cbn [sock_attempts sock_timeout].
  rewrite <- !app_assoc; cbn [app].
  destruct (net_resolve net host) as [e|]; [by destruct e|].
  destruct ((port <? 0) || (65535 <? port)); [done|].
  unfold close, ret; cbn [socks next_fd trace].
  by rewrite insert_insert_eq, delete_insert_eq, <- app_assoc.
Qed.

(** A probe returns, whatever the world it starts in, and its value does
    not depend on that world. *)
Lemma scan_port_value net host port timeout w :
  (scan_port net host port timeout w).1 =
  Ret (match net_socket net, timeout_refused timeout,
             net_resolve net host with
       | None, None, None =>
           negb ((port <? 0) || (65535 <? port))
           && (net_connect net [] host port (Some timeout) =? 0)
       | _, _, _ => false
       end).
Proof.
  rewrite scan_port_eq.
  destruct (net_socket net), (timeout_refused timeout),
    (net_resolve net host), ((port <? 0) || (65535 <? port)); done.
Qed.

Lemma scan_port_world_irrelevant net host port timeout w w' :
  (scan_port net host port timeout w).1 =
  (scan_port net host port timeout w').1.
Proof. by rewrite !scan_port_value. Qed.

(** C1.  For a port in 0-65535 and a positive timeout, whatever the host
    string, [scan_port] returns a boolean and raises nothing; the boolean is
    [True] exactly when the connection is established: the socket is
    granted, the timeout is one [settimeout] accepts, the host resolves and
    the connect reports 0.  A socket that cannot be created, a timeout too
    large for [settimeout], a host that does not resolve and a connect that
    reports an error all give [False]. *)
Theorem scan_port_open_iff_established net host port timeout w :
  0 ≤ port ≤ 65535 → (0 < timeout)%Q →
  ∃ b : bool,
    (scan_port net host port timeout w).1 = Ret b ∧
    (b = true ↔ net_socket net = None ∧ (timeout <= TIMEOUT_MAX)%Q ∧
                net_resolve net host = None ∧
                net_connect net [] host port (Some timeout) = 0) ∧
    (is_Some (net_socket net) ∨ (TIMEOUT_MAX < timeout)%Q ∨
     is_Some (net_resolve net host) ∨
     net_connect net [] host port (Some timeout) ≠ 0 → b = false).
Proof.
  intros Hport Htmo. eexists. split; [apply scan_port_value|].
  replace ((port <? 0) || (65535 <? port)) with false by lia.
  cbn [negb andb].
  destruct (net_socket net) as [e1|].
  { split; [split; [done | intros (? & _); congruence] | done]. }
  destruct (timeout_refused timeout) as [e2|] eqn:Hrefused.
  { split; [|done]. split; [done|]. intros (_ & Hfit & _).
    by rewrite timeout_refused_positive in Hrefused. }
  apply timeout_refused_None in Hrefused as [_ Hfit].
  destruct (net_resolve net host) as [e3|].
  { split; [split; [done | intros (_ & _ & ? & _); congruence] | done]. }
  rewrite Z.eqb_eq. split; [tauto|].
  intros [[? [=]]|[Hbig|[[? [=]]|Hne]]]; [|by apply Z.eqb_neq].
  exfalso. eapply Qlt_not_le; eauto.
Qed.

Lemma scan_port_open_iff_established_witness :
  ∃ b : bool,
    (scan_port lan "10.0.0.7" 443 2 w0).1 = Ret b ∧
    (b = true ↔ net_socket lan = None ∧ (2 <= TIMEOUT_MAX)%Q ∧
                net_resolve lan "10.0.0.7" = None ∧
                net_connect lan [] "10.0.0.7" 443 (Some 2%Q) = 0) ∧
    (is_Some (net_socket lan) ∨ (TIMEOUT_MAX < 2)%Q ∨
     is_Some (net_resolve lan "10.0.0.7") ∨
     net_connect lan [] "10.0.0.7" 443 (Some 2%Q) ≠ 0 → b = false).
Proof. apply scan_port_open_iff_established; [lia | reflexivity]. Defined.

(** C10.  [scan_port] is total: for every host string, every integer port
    and every timeout it returns a boolean and raises nothing; a port below 0
    or above 65535 gives [False]. *)
Theorem scan_port_total net host port timeout w :
  ∃ b : bool,
    (scan_port net host port timeout w).1 = Ret b ∧
    (port < 0 ∨ 65535 < port → b = false).
Proof.
  eexists. split; [apply scan_port_value|]. intros Hport.
  replace ((port <? 0) || (65535 <? port)) with true by lia.
  by destruct (net_socket net), (timeout_refused timeout),
    (net_resolve net host).
Qed.

Lemma scan_port_total_witness :
  (scan_port lan "10.0.0.7" 70000 2 w0).1 = Ret false.
Proof.
  destruct (scan_port_total lan "10.0.0.7" 70000 2 w0) as (b & Hb & Hf).
  rewrite Hb, Hf; [done | lia].
Defined.

(** ** The burst of [check_host] *)

Lemma try_ports_eq net sock ip ports tmo earlier w :
  socks w !! sock = Some (mkSock tmo earlier) →
  net_resolve net ip = None →
  Forall (λ port, 0 ≤ port ≤ 65535) ports →
  try_ports net sock ip ports w =
  if any_open net ip tmo earlier ports then
    (Ret (Some ip),
     mkWorld (next_fd w) (delete sock (socks w))
       (trace w
          ++ (Ev_connect_ex sock ip <$> attempted net ip tmo earlier ports)
          ++ [Ev_close sock]))
  else
    (Ret None,
     mkWorld (next_fd w)
       (<[sock := mkSock tmo (earlier ++ ((λ port, (ip, port)) <$> ports))]>
          (socks w))
       (trace w ++ (Ev_connect_ex sock ip <$> ports))).
Proof.
  intros Hsock Hres Hports. revert earlier w Hsock.
  induction Hports as [|port rest Hport _ IH]; intros earlier w Hsock.
  - cbn. rewrite !app_nil_r, insert_id by done. by destruct w.
  - cbn [try_ports any_open attempted]. unfold bind at 1.
    unfold connect_ex. rewrite Hsock, Hres.
    cbn [sock_attempts sock_timeout socks next_fd trace].
    replace ((port <? 0) || (65535 <? port)) with false by lia.
    destruct (net_connect net earlier ip port tmo =? 0) eqn:E; cbn [orb].
    + unfold bind, close, ret; cbn.
      by rewrite delete_insert_eq, <- app_assoc.
    + rewrite (IH (earlier ++ [(ip, port)]))
        by (cbn; apply lookup_insert_eq).
      cbn [next_fd socks trace].
      destruct (any_open net ip tmo (earlier ++ [(ip, port)]) rest).
      * rewrite delete_insert_eq, <- !app_assoc. by cbn.
      * rewrite insert_insert_eq, <- !app_assoc. by cbn.
Qed.

Lemma try_ports_unresolved net sock ip port rest st e w :
  socks w !! sock = Some st →
  net_resolve net ip = Some e →
  try_ports net sock ip (port :: rest) w =
  (Raise e, mkWorld (next_fd w) (socks w)
              (trace w ++ [Ev_connect_ex sock ip port])).
Proof.
  intros Hsock Hres. cbn [try_ports]. unfold bind, connect_ex.
  by rewrite Hsock, Hres.
Qed.

Lemma burst_ports_in_range : Forall (λ port, 0 ≤ port ≤ 65535) burst_ports.
Proof. repeat constructor; lia. Qed.

Lemma attempted_all net ip tmo earlier ports :
  any_open net ip tmo earlier ports = false →
  attempted net ip tmo earlier ports = ports.
Proof.
  revert earlier. induction ports as [|port rest IH]; intros earlier; [done|].
  cbn. destruct (net_connect net earlier ip port tmo =? 0); [done|].
  cbn. intros H. by rewrite IH.
Qed.

(** What one call of [check_host] returns and does to the world. *)
Lemma check_host_eq net timeout ip w :
  check_host net timeout ip w =
  match net_socket net with
  | Some _ => (Ret None, w)
  | None =>
      let fd := next_fd w in
      match timeout_refused timeout with
      | Some _ =>
          (Ret None,
           mkWorld (S fd) (<[fd := mkSock None []]> (socks w))
             (trace w ++ [Ev_socket fd; Ev_settimeout fd timeout]))
      | None =>
          match net_resolve net ip with
          | Some _ =>
              (Ret None,
               mkWorld (S fd) (<[fd := mkSock (Some timeout) []]> (socks w))
                 (trace w ++ [Ev_socket fd; Ev_settimeout fd timeout;
                              Ev_connect_ex fd ip 80]))
          | None =>
              (Ret (if any_open net ip (Some timeout) [] burst_ports
                    then Some ip else None),
               mkWorld (S fd) (delete fd (socks w))
                 (trace w ++ [Ev_socket fd; Ev_settimeout fd timeout]
                    ++ (Ev_connect_ex fd ip <$>
                          attempted net ip (Some timeout) [] burst_ports)
                    ++ [Ev_close fd]))
          end
      end
  end.
Proof.
  unfold check_host, try_except. unfold bind at 1. unfold socket_socket.
  destruct (net_socket net) as [e|]; [done|].
  unfold bind at 1. unfold settimeout; cbn [socks next_fd trace].
  rewrite lookup_insert_eq.
  destruct (timeout_refused timeout) as [e|]; cbn [socks next_fd trace];
    [by rewrite trace_snoc2|].
  rewrite insert_insert_eq, trace_snoc2. cbn [sock_attempts].
  destruct (net_resolve net ip) as [e|] eqn:Hres.
  - unfold bind at 1, burst_ports.
    rewrite (try_ports_unresolved _ _ _ _ _ (mkSock (Some timeout) []) e)
      by (done || apply lookup_insert_eq).
    cbn [socks next_fd trace]. by rewrite <- app_assoc.
  - unfold bind at 1.
    rewrite (try_ports_eq _ _ _ _ (Some timeout) [])
      by (done || apply lookup_insert_eq || apply burst_ports_in_range).
    cbn [socks next_fd trace].
    destruct (any_open net ip (Some timeout) [] burst_ports) eqn:E.
    + unfold ret. by rewrite delete_insert_eq, <- !app_assoc.
    + unfold bind, close, ret; cbn [socks next_fd trace].
      rewrite (attempted_all _ _ _ _ _ E).
      by rewrite insert_insert_eq, delete_insert_eq, <- !app_assoc.
Qed.

(** ** Release of the socket *)

(** When no call of the probe raises, its socket is closed on return. *)
Lemma scan_port_closes net host port timeout w :
  net_socket net = None → timeout_refused timeout = None →
  net_resolve net host = None → 0 ≤ port ≤ 65535 →
  ¬ is_open (next_fd w) (scan_port net host port timeout w).2.
Proof.
  intros Hs Ht Hr Hp. rewrite scan_port_eq, Hs, Ht, Hr.
  replace ((port <? 0) || (65535 <? port)) with false by lia.
  unfold is_open; cbn. rewrite lookup_delete_eq. by intros [? [=]].
Qed.

(** When [settimeout] or [connect_ex] raises, the handler returns [False]
    and [close] was not called on the socket created by the probe. *)
Lemma scan_port_leaks net host port timeout w :
  net_socket net = None →
  is_Some (timeout_refused timeout) ∨ is_Some (net_resolve net host) ∨
    port < 0 ∨ 65535 < port →
  (scan_port net host port timeout w).1 = Ret false ∧
  is_open (next_fd w) (scan_port net host port timeout w).2.
Proof.
  intros Hs Hbad. rewrite scan_port_eq, Hs. unfold is_open.
  destruct (timeout_refused timeout); cbn [fst snd socks].
  { by rewrite lookup_insert_eq. }
  destruct (net_resolve net host) as [e|]; cbn [fst snd socks].
  - by rewrite lookup_insert_eq.
  - destruct Hbad as [[? [=]]|[[? [=]]|Hp]].
    replace ((port <? 0) || (65535 <? port)) with true by lia.
    cbn. by rewrite lookup_insert_eq.
Qed.

(** C5.  The claim fails on the code.  A probe of a host name that does not
    resolve returns [False] with descriptor 3, the socket it created, still
    open and never closed: [connect_ex] raised and the handler returns without
    [sock.close()].  The same holds for [check_host].  A probe whose calls
    all return closes its socket. *)
Theorem socket_left_open_when_a_call_raises :
  (scan_port lan "no.such.host" 80 2 w0).1 = Ret false ∧
  ¬ is_open 3 w0 ∧
  is_open 3 (scan_port lan "no.such.host" 80 2 w0).2 ∧
  (Ev_close 3 ∉ trace (scan_port lan "no.such.host" 80 2 w0).2) ∧
  (check_host lan 2 "no.such.host" w0).1 = Ret None ∧
  is_open 3 (check_host lan 2 "no.such.host" w0).2 ∧
  (Ev_close 3 ∉ trace (check_host lan 2 "no.such.host" w0).2) ∧
  ¬ is_open 3 (scan_port lan "10.0.0.7" 80 2 w0).2.
Proof.
  assert (∀ host port,
    Ev_close 3 ∉ [Ev_socket 3; Ev_settimeout 3 2;
                  Ev_connect_ex 3 host port]) as Hnc.
  { intros host port H.
    by repeat (apply elem_of_cons in H as [[=]|H]); apply elem_of_nil in H. }
  unfold is_open.
  repeat split; try (vm_compute; by eauto); try apply Hnc;
    by intros [? [=]].
Qed.

(** ** Input errors *)

(** C6, counterexample.  Port 70000 is outside 0-65535, yet the probe is
    not refused: a socket is created, [connect_ex] is called, and the caller
    gets [False], as for a closed port. *)
Lemma bad_port_is_coerced_to_False :
  65535 < 70000 ∧
  (scan_port lan "10.0.0.7" 70000 2 w0).1 = Ret false ∧
  (∀ e, (scan_port lan "10.0.0.7" 70000 2 w0).1 ≠ Raise e) ∧
  trace (scan_port lan "10.0.0.7" 70000 2 w0).2 =
    [Ev_socket 3; Ev_settimeout 3 2; Ev_connect_ex 3 "10.0.0.7" 70000].
Proof.
  split; [lia|]. split; [by vm_compute|]. split; [|by vm_compute].
  intros e. by vm_compute.
Qed.

(** C6, amended.  [scan_port] refuses no input: it returns a boolean for
    every host, port and timeout, and a port outside 0-65535, a negative
    timeout or a host that cannot be resolved gives [False], as a closed port
    does.  A thread count of zero or less is refused by [scan_ports] with
    [ValueError] before any socket call is made. *)
Theorem input_errors_folded_or_refused :
  (∀ net host port timeout w,
     ∃ b : bool, (scan_port net host port timeout w).1 = Ret b) ∧
  (∀ net host port timeout w,
     port < 0 ∨ 65535 < port ∨ (timeout < 0)%Q ∨
       is_Some (net_resolve net host) →
     (scan_port net host port timeout w).1 = Ret false) ∧
  (∀ net host ports timeout threads order w,
     threads ≤ 0 →
     scan_ports net host ports timeout threads order w =
       (Raise ValueError, w)).
Proof.
  split; [|split].
  - intros. eexists. apply scan_port_value.
  - intros net host port timeout w Hbad. rewrite scan_port_value.
    destruct (net_socket net); [done|].
    destruct (timeout_refused timeout) eqn:Hto; [done|].
    destruct (net_resolve net host) as [e|]; [done|].
    destruct Hbad as [Hp|[Hp|[Ht|[? [=]]]]].
    + by replace ((port <? 0) || (65535 <? port)) with true by lia.
    + by replace ((port <? 0) || (65535 <? port)) with true by lia.
    + destruct (timeout_refused_out timeout) as [? [=]]; [by left|].
      congruence.
  - intros net host ports timeout threads order w Hthreads.
    unfold scan_ports, scan_ports_with, bind, ThreadPoolExecutor.
    by replace (threads <=? 0) with true by lia.
Qed.

Lemma input_errors_folded_or_refused_witness :
  (scan_port lan "10.0.0.7" (-1) 2 w0).1 = Ret false ∧
  (scan_port lan "10.0.0.7" 80 (-1) w0).1 = Ret false ∧
  scan_ports lan "10.0.0.7" [80; 443] 2 0 [0; 1]%nat w0 =
    (Raise ValueError, w0).
Proof.
  destruct input_errors_folded_or_refused as (_ & Hfold & Hpool).
  split; [|split].
  - apply Hfold. left. lia.
  - apply Hfold. right; right; left. reflexivity.
  - apply Hpool. lia.
Defined.

(** ** The executor *)

Lemma completion_order_lt n order :
  completion_order n order → Forall (λ i, i < n)%nat order.
Proof.
  intros Hperm. apply Forall_forall. intros i Hi.
  rewrite Hperm in Hi. apply elem_of_seq in Hi. lia.
Qed.

Lemma completion_order_elem_of n order i :
  completion_order n order → i ∈ order ↔ (i < n)%nat.
Proof. intros Hperm. rewrite Hperm, elem_of_seq. lia. Qed.

Section as_completed.
Context {A : Type} (tasks : list (M A)).

(** Every future named by the scheduler is yielded, in that order. *)
Lemma as_completed_indices order w :
  Forall (λ i, i < length tasks)%nat order →
  (as_completed tasks order w).1.*1 = order.
Proof.
  intros H. revert w. induction H as [|i rest Hi _ IH]; intros w; [done|].
  cbn [as_completed].
  destruct (tasks !! i) as [task|] eqn:E;
    [|apply lookup_ge_None in E; lia].
  destruct (task w) as [o w1]. specialize (IH w1).
  destruct (as_completed tasks rest w1) as [os w2]. cbn in *. by f_equal.
Qed.

(** When what a callable returns does not depend on the world it runs
    in, the futures hold the same outcomes under every schedule. *)
Lemma as_completed_outcomes (o : nat → outcome A) order w :
  (∀ i task w, tasks !! i = Some task → (task w).1 = o i) →
  Forall (λ i, i < length tasks)%nat order →
  (as_completed tasks order w).1 = (λ i, (i, o i)) <$> order.
Proof.
  intros Ho H. revert w. induction H as [|i rest Hi _ IH]; intros w; [done|].
  cbn [as_completed].
  destruct (tasks !! i) as [task|] eqn:Htask;
    [|apply lookup_ge_None in Htask; lia].
  specialize (Ho i task w Htask).
  destruct (task w) as [oi w1]. specialize (IH w1).
  destruct (as_completed tasks rest w1) as [os w2]. cbn in *.
  by subst.
Qed.
End as_completed.

(** ** The port scheduler *)

Lemma record_result_eq ports results i o :
  record_result ports results (i, o) =
  match ports !! i with
  | Some port => <[port := recorded o]> results
  | None => results
  end.
Proof. unfold record_result. by destruct (ports !! i), o. Qed.

Lemma foldl_record_dom ports completed (results : gmap Z bool) p :
  p ∈ dom (foldl (record_result ports) results completed) ↔
  p ∈ dom results ∨ ∃ c, c ∈ completed ∧ ports !! c.1 = Some p.
Proof.
  revert results. induction completed as [|[i o] rest IH]; intros results.
  - cbn. split; [by left|]. intros [?|(c & Hc & _)]; [done|].
    by apply elem_of_nil in Hc.
  - cbn [foldl]. rewrite IH, record_result_eq. split.
    + intros [Hp|(c & Hc & Hl)].
      * destruct (ports !! i) as [port|] eqn:E; [|by left].
        rewrite dom_insert_L in Hp.
        apply elem_of_union in Hp as [Hp|Hp]; [|by left].
        apply elem_of_singleton in Hp as ->.
        right. exists (i, o). split; [left|done].
      * right. exists c. split; [by right|done].
    + intros [Hp|(c & Hc & Hl)].
      * left. destruct (ports !! i); [|done].
        rewrite dom_insert_L. apply elem_of_union. by right.
      * apply elem_of_cons in Hc as [->|Hc].
        -- left. cbn in Hl. rewrite Hl, dom_insert_L.
           apply elem_of_union. left. by apply elem_of_singleton.
        -- right. by exists c.
Qed.

Lemma foldl_record_lookup ports (v : Z → bool) completed
    (results : gmap Z bool) p b :
  (∀ c port, c ∈ completed → ports !! c.1 = Some port →
             recorded c.2 = v port) →
  foldl (record_result ports) results completed !! p = Some b →
  results !! p = Some b ∨ b = v p.
Proof.
  revert results. induction completed as [|[i o] rest IH];
    intros results Hv Hl; [by left|].
  cbn [foldl] in Hl. apply IH in Hl.
  2:{ intros c port Hc. apply Hv. by right. }
  destruct Hl as [Hl|Hl]; [|by right].
  rewrite record_result_eq in Hl.
  destruct (ports !! i) as [port|] eqn:E; [|by left].
  destruct (decide (port = p)) as [->|Hne].
  - rewrite lookup_insert_eq in Hl. injection Hl as <-.
    right. apply (Hv (i, o)); [left|done].
  - rewrite lookup_insert_ne in Hl by done. by left.
Qed.

Lemma size_list_to_set_remove_dups (l : list Z) :
  size (list_to_set (C := gset Z) l) = length (remove_dups l).
Proof.
  rewrite <- (size_list_to_set (C := gset Z) (remove_dups l))
    by apply NoDup_remove_dups.
  f_equal. apply set_eq. intros x.
  by rewrite !elem_of_list_to_set, elem_of_remove_dups.
Qed.

(** Whatever the submitted callable does, the result has the requested
    ports as its keys, each once. *)
Lemma scan_ports_with_dom probe ports threads order w :
  0 < threads → completion_order (length ports) order →
  ∃ results w',
    scan_ports_with probe ports threads order w = (Ret results, w') ∧
    dom results = list_to_set ports ∧
    size results = length (remove_dups ports).
Proof.
  intros Hthreads Horder.
  unfold scan_ports_with, bind, ThreadPoolExecutor.
  replace (threads <=? 0) with false by lia. cbn [ret].
  pose proof (as_completed_indices (probe <$> ports) order w) as Hidx.
  rewrite length_fmap in Hidx.
  specialize (Hidx (completion_order_lt _ _ Horder)).
  destruct (as_completed (probe <$> ports) order w) as [completed w1].
  cbn [fst] in Hidx. eexists _, _. split; [done|].
  assert (dom (foldl (record_result ports) ∅ completed)
          = list_to_set (C := gset Z) ports) as Hdom.
  { apply set_eq. intros p.
    rewrite foldl_record_dom, dom_empty_L, elem_of_list_to_set,
      list_elem_of_lookup.
    split.
    - intros [Hp|(c & _ & Hc)]; [by apply elem_of_empty in Hp|]. eauto.
    - intros [i Hi]. right.
      assert (i ∈ completed.*1) as Hin.
      { rewrite Hidx. apply (completion_order_elem_of _ _ _ Horder).
        by apply lookup_lt_is_Some_1. }
      apply list_elem_of_fmap in Hin as (c & -> & Hc). eauto. }
  split; [done|].
  by rewrite <- size_dom, Hdom, size_list_to_set_remove_dups.
Qed.

(** When the callable returns or raises the same thing in every world,
    each requested port is mapped to that, an exception counting as
    [False]. *)
Lemma scan_ports_with_lookup probe (o : Z → outcome bool) ports threads
    order w results w' :
  (∀ port w, (probe port w).1 = o port) →
  completion_order (length ports) order →
  scan_ports_with probe ports threads order w = (Ret results, w') →
  ∀ p, p ∈ ports → results !! p = Some (recorded (o p)).
Proof.
  intros Ho Horder Hrun p Hp.
  unfold scan_ports_with, bind, ThreadPoolExecutor in Hrun.
  destruct (threads <=? 0); [done|]. cbn [ret] in Hrun.
  set (oi := λ i : nat, from_option o (Raise IndexError) (ports !! i)).
  assert ((as_completed (probe <$> ports) order w).1
          = (λ i, (i, oi i)) <$> order) as Hout.
  { apply as_completed_outcomes.
    - intros i task w2. rewrite list_lookup_fmap. unfold oi.
      destruct (ports !! i) as [port|]; [|done].
      intros [= <-]. apply Ho.
    - rewrite length_fmap. by apply completion_order_lt. }
  destruct (as_completed (probe <$> ports) order w) as [completed w1].
  cbn [fst] in Hout. injection Hrun as <- <-. subst completed.
  assert (p ∈ dom (foldl (record_result ports) ∅
                     ((λ i, (i, oi i)) <$> order))) as Hdom.
  { apply foldl_record_dom. right.
    apply list_elem_of_lookup in Hp as [i Hi].
    exists (i, oi i). split; [|done].
    apply list_elem_of_fmap. exists i. split; [done|].
    apply (completion_order_elem_of _ _ _ Horder).
    by apply lookup_lt_is_Some_1. }
  apply elem_of_dom in Hdom as [b Hb]. rewrite Hb. f_equal.
  apply (foldl_record_lookup ports (λ port, recorded (o port))) in Hb
    as [Hb|Hb]; [by rewrite lookup_empty in Hb|done|].
  intros c port Hc Hport.
  apply list_elem_of_fmap in Hc as (i & -> & _).
  unfold oi. cbn in *. by rewrite Hport.
Qed.

(** C2.  With a positive thread count, under every order of completion,
    [scan_ports] returns a dict whose keys are exactly the requested ports:
    duplicates in the list give one entry, no requested port is missing and
    no other port appears.  This holds for every callable submitted in place
    of [scan_port], also one that raises. *)
Theorem scan_ports_one_entry_per_port net host (probe : Z → M bool) ports
    timeout threads order w :
  0 < threads → completion_order (length ports) order →
  (∃ results w',
     scan_ports net host ports timeout threads order w = (Ret results, w') ∧
     dom results = list_to_set ports ∧
     size results = length (remove_dups ports)) ∧
  (∃ results w',
     scan_ports_with probe ports threads order w = (Ret results, w') ∧
     dom results = list_to_set ports ∧
     size results = length (remove_dups ports)).
Proof.
  intros Hthreads Horder. split; by apply scan_ports_with_dom.
Qed.

Lemma scan_ports_one_entry_per_port_witness :
  let probe := λ port : Z,
    if port =? 443 then raise (A := bool) (OSError 24) else ret true in
  (∃ results w',
     scan_ports lan "10.0.0.7" [80; 443; 80] 2 100 [2; 0; 1]%nat w0
       = (Ret results, w') ∧
     dom results = list_to_set [80; 443; 80] ∧
     size results = length (remove_dups [80; 443; 80])) ∧
  (∃ results w',
     scan_ports_with probe [80; 443; 80] 100 [2; 0; 1]%nat w0
       = (Ret results, w') ∧
     dom results = list_to_set [80; 443; 80] ∧
     size results = length (remove_dups [80; 443; 80])).
Proof.
  intros probe. apply scan_ports_one_entry_per_port; [lia|].
  unfold completion_order. apply (bool_decide_unpack _). by vm_compute.
Defined.

(** C3.  With a positive thread count, under every order of completion,
    [scan_ports] maps each requested port to what one call of [scan_port] on
    that port returns.  For a submitted callable that may raise, the port of a
    call that raised is mapped to [False] and the other ports keep their
    results. *)
Theorem scan_ports_pointwise_scan_port net host (probe : Z → M bool)
    (o : Z → outcome bool) ports timeout threads order w :
  0 < threads → completion_order (length ports) order →
  (∀ port w1, (probe port w1).1 = o port) →
  (∃ results w',
     scan_ports net host ports timeout threads order w = (Ret results, w') ∧
     ∀ p, p ∈ ports →
       ∃ b, results !! p = Some b ∧
            ∀ w1, (scan_port net host p timeout w1).1 = Ret b) ∧
  (∃ results w',
     scan_ports_with probe ports threads order w = (Ret results, w') ∧
     ∀ p, p ∈ ports →
       results !! p = Some (match o p with Ret b => b | Raise _ => false end)).
Proof.
  intros Hthreads Horder Ho. split.
  - destruct (scan_ports_with_dom (λ port, scan_port net host port timeout)
                ports threads order w Hthreads Horder)
      as (results & w' & Hrun & _).
    exists results, w'. split; [done|]. intros p Hp.
    eexists. split.
    + eapply (scan_ports_with_lookup _ (λ port, Ret _)); [|done..].
      intros port w1. apply scan_port_value.
    + intros w1. apply scan_port_value.
  - destruct (scan_ports_with_dom probe ports threads order w
                Hthreads Horder) as (results & w' & Hrun & _).
    exists results, w'. split; [done|]. intros p Hp.
    by eapply (scan_ports_with_lookup _ o).
Qed.

Lemma scan_ports_pointwise_scan_port_witness :
  let probe := λ port : Z,
    if port =? 443 then raise (A := bool) (OSError 24) else ret true in
  let o := λ port : Z, if port =? 443 then Raise (OSError 24) else Ret true in
  (∃ results w',
     scan_ports lan "10.0.0.7" [80; 443; 80] 2 100 [2; 0; 1]%nat w0
       = (Ret results, w') ∧
     ∀ p, p ∈ [80; 443; 80] →
       ∃ b, results !! p = Some b ∧
            ∀ w1, (scan_port lan "10.0.0.7" p 2 w1).1 = Ret b) ∧
  (∃ results w',
     scan_ports_with probe [80; 443; 80] 100 [2; 0; 1]%nat w0
       = (Ret results, w') ∧
     ∀ p, p ∈ [80; 443; 80] →
       results !! p = Some (match o p with Ret b => b | Raise _ => false end)).
Proof.
  intros probe o. apply scan_ports_pointwise_scan_port; [lia| |].
  - unfold completion_order. apply (bool_decide_unpack _). by vm_compute.
  - intros port w1. unfold probe, o. by destruct (port =? 443).
Defined.

(** ** Addresses and their final octet *)

Lemma split_nonempty sep s : split sep s ≠ [].
Proof.
  destruct s as [|c s]; cbn [split]; [done|].
  destruct (Ascii.eqb c sep); [done|]. by destruct (split sep s).
Qed.

(** The last field of [p ++ sep ++ s] is the last field of [s]. *)
Lemma last_split_app sep p s :
  last (split sep (p +:+ String sep s)) = last (split sep s).
Proof.
  assert (∃ x l, split sep (p +:+ String sep s) = x :: l ++ split sep s)
    as (x & l & ->).
  { induction p as [|c p (x & l & IH)]; simpl.
    - rewrite Ascii.eqb_refl. by exists EmptyString, [].
    - destruct (Ascii.eqb c sep).
      + exists EmptyString, (x :: l). by rewrite IH.
      + rewrite IH. by exists (String c x), l. }
  change (x :: l ++ split sep s) with ((x :: l) ++ split sep s).
  rewrite last_app.
  destruct (last (split sep s)) eqn:E; [done|].
  apply last_None in E. by apply split_nonempty in E.
Qed.

(** The decimal strings of 1 to 254 have no dot and are read back by
    [int]. *)
Lemma octets_read_back :
  Forall (λ i : Z, split "." (pretty i) = [pretty i] ∧ int (pretty i) = Ret i)
         (seqZ 1 254).
Proof. apply (bool_decide_unpack _). by vm_compute. Qed.

Lemma last_octet_address network_prefix (i : Z) :
  1 ≤ i ≤ 254 → last_octet (network_prefix +:+ "." +:+ pretty i) = Ret i.
Proof.
  intros Hi. unfold last_octet.
  change ("." +:+ pretty i) with (String "." (pretty i)).
  rewrite last_split_app.
  pose proof octets_read_back as H. rewrite Forall_seqZ in H.
  destruct (H i) as [Hsplit Hint]; [lia|]. by rewrite Hsplit.
Qed.

Lemma elem_of_ips network_prefix ip :
  ip ∈ ips network_prefix ↔
  ∃ i : Z, 1 ≤ i ≤ 254 ∧ ip = network_prefix +:+ "." +:+ pretty i.
Proof.
  unfold ips. rewrite list_elem_of_fmap. setoid_rewrite elem_of_seqZ.
  split; intros (i & ? & ?); exists i; split; (done || lia).
Qed.

Lemma octet_ips network_prefix ip :
  ip ∈ ips network_prefix →
  last_octet ip = Ret (octet ip) ∧ 1 ≤ octet ip ≤ 254 ∧
  ip = network_prefix +:+ "." +:+ pretty (octet ip).
Proof.
  intros (i & Hi & ->)%elem_of_ips. unfold octet.
  by rewrite last_octet_address.
Qed.

Lemma ips_nonempty network_prefix ip :
  ip ∈ ips network_prefix → ip ≠ EmptyString.
Proof.
  intros (i & _ & ->)%elem_of_ips. by destruct network_prefix.
Qed.

Lemma StronglySorted_filter {A} (R : relation A) (P : A → Prop)
    `{∀ x, Decision (P x)} l :
  StronglySorted R l → StronglySorted R (filter P l).
Proof.
  induction 1 as [|x l _ IH Hx]; [constructor|].
  rewrite filter_cons. case_decide; [|done].
  constructor; [done|]. apply Forall_forall. intros y Hy.
  apply list_elem_of_filter in Hy as [_ Hy].
  by eapply Forall_forall in Hx.
Qed.

(** [ips] lists the candidates by strictly increasing final octet. *)
Lemma ips_sorted network_prefix :
  StronglySorted (λ a b, octet a < octet b) (ips network_prefix).
Proof.
  assert (StronglySorted (λ x y, (1 ≤ x ≤ 254 ∧ 1 ≤ y ≤ 254) ∧ x < y)
            (seqZ 1 254)) as Hseq.
  { apply (bool_decide_unpack _). by vm_compute. }
  unfold ips. eapply StronglySorted_fmap; [|exact Hseq].
  intros x y [[Hx Hy] Hlt]. unfold octet. cbn beta.
  by rewrite !last_octet_address.
Qed.

Lemma strictly_sorted_inj {A} (k : A → Z) l a b :
  StronglySorted (λ a b, k a < k b) l →
  a ∈ l → b ∈ l → k a = k b → a = b.
Proof.
  induction 1 as [|x l _ IH Hx]; [by intros ?%elem_of_nil|].
  rewrite Forall_forall in Hx.
  intros [->|Ha]%elem_of_cons [->|Hb]%elem_of_cons Hk; [done| | |by apply IH].
  - specialize (Hx _ Hb). lia.
  - specialize (Hx _ Ha). lia.
Qed.

Lemma ips_NoDup network_prefix : NoDup (ips network_prefix).
Proof.
  pose proof (ips_sorted network_prefix) as H.
  induction H as [|x l _ IH Hx]; constructor; [|done].
  intros Hin. rewrite Forall_forall in Hx. specialize (Hx _ Hin). lia.
Qed.

Lemma ips_length network_prefix : length (ips network_prefix) = 254%nat.
Proof. unfold ips. by rewrite length_fmap, length_seqZ. Qed.

(** ** [sorted] *)

Lemma insert_keyed_Permutation {A} (kx : Z * A) l :
  insert_keyed kx l ≡ₚ kx :: l.
Proof.
  induction l as [|ky l IH]; cbn; [done|].
  destruct (kx.1 <=? ky.1); [done|]. by rewrite IH, Permutation_swap.
Qed.

Lemma sort_keyed_Permutation {A} (l : list (Z * A)) : sort_keyed l ≡ₚ l.
Proof.
  induction l as [|kx l IH]; cbn; [done|].
  by rewrite insert_keyed_Permutation, IH.
Qed.

Lemma insert_keyed_sorted {A} (kx : Z * A) l :
  StronglySorted (λ a b, a.1 ≤ b.1) l →
  StronglySorted (λ a b, a.1 ≤ b.1) (insert_keyed kx l).
Proof.
  induction 1 as [|ky l Hl IH Hky]; cbn; [by repeat constructor|].
  destruct (kx.1 <=? ky.1) eqn:E.
  - apply Z.leb_le in E. constructor; [by constructor|].
    constructor; [done|]. eapply Forall_impl; [exact Hky|].
    cbn. intros. lia.
  - apply Z.leb_gt in E. constructor; [done|].
    rewrite insert_keyed_Permutation. constructor; [lia|done].
Qed.

Lemma sort_keyed_sorted {A} (l : list (Z * A)) :
  StronglySorted (λ a b, a.1 ≤ b.1) (sort_keyed l).
Proof.
  induction l as [|kx l IH]; cbn; [constructor|].
  by apply insert_keyed_sorted.
Qed.

Lemma keyed_total {A} (key : A → outcome Z) (k : A → Z) l :
  Forall (λ x, key x = Ret (k x)) l →
  keyed key l = Ret ((λ x, (k x, x)) <$> l).
Proof.
  induction 1 as [|x l Hx _ IH]; [done|]. cbn. by rewrite Hx, IH.
Qed.

(** A list whose keys are all defined and distinct is sorted into the one
    arrangement with increasing keys. *)
Lemma sorted_canonical {A} (key : A → outcome Z) (k : A → Z) l l_sorted :
  Forall (λ x, key x = Ret (k x)) l_sorted →
  StronglySorted (λ a b, k a < k b) l_sorted →
  l ≡ₚ l_sorted →
  sorted key l = Ret l_sorted.
Proof.
  intros Hkey Hsorted Hperm. unfold sorted.
  rewrite (keyed_total key k) by by rewrite Hperm.
  f_equal.
  rewrite (StronglySorted_unique_strong (λ a b : Z * A, a.1 ≤ b.1)
             (sort_keyed ((λ x, (k x, x)) <$> l))
             ((λ x, (k x, x)) <$> l_sorted)).
  - rewrite <- list_fmap_compose. apply list_fmap_id.
  - intros x1 x2 H1 H2 Hle1 Hle2.
    rewrite sort_keyed_Permutation, Hperm in H1.
    apply list_elem_of_fmap in H1 as (a & -> & Ha).
    apply list_elem_of_fmap in H2 as (b & -> & Hb).
    cbn in *.
    assert (a = b) as -> by (eapply (strictly_sorted_inj k); [done..|lia]).
    done.
  - apply sort_keyed_sorted.
  - eapply StronglySorted_fmap; [|exact Hsorted]. cbn. intros. lia.
  - by rewrite sort_keyed_Permutation, Hperm.
Qed.

(** ** The host sweeper *)

(** What [check_host] returns does not depend on the world it runs in. *)
Lemma check_host_value net timeout ip w :
  (check_host net timeout ip w).1 =
  Ret (if alive net timeout ip then Some ip else None).
Proof.
  rewrite check_host_eq. unfold alive.
  by destruct (net_socket net), (timeout_refused timeout),
    (net_resolve net ip).
Qed.

Lemma omap_lookup_seq {A B} (f : A → option B) (l1 l2 : list A) :
  omap (λ i, (l1 ++ l2) !! i ≫= f) (seq (length l1) (length l2)) = omap f l2.
Proof.
  revert l1. induction l2 as [|x l2 IH]; intros l1; [done|].
  cbn. rewrite list_lookup_middle by done. cbn.
  specialize (IH (l1 ++ [x])).
  rewrite <- app_assoc, length_app, Nat.add_1_r in IH. cbn in IH.
  by rewrite IH.
Qed.

Lemma omap_filter_bool {A} (b : A → bool) (l : list A) :
  omap (λ x, if b x then Some x else None) l = filter (λ x, b x = true) l.
Proof.
  induction l as [|x l IH]; [done|]. rewrite filter_cons. csimpl.
  rewrite IH. destruct (b x); [by rewrite decide_True|by rewrite decide_False].
Qed.

(** The loop of [scan_network] collects the candidates found alive, in the
    order in which their futures complete. *)
Lemma collect_active_eq net timeout candidates order active_hosts :
  Forall (λ ip, ip ≠ EmptyString) candidates →
  collect_active
    ((λ i, (i, from_option
                 (λ ip, Ret (if alive net timeout ip then Some ip else None))
                 (Raise IndexError) (candidates !! i))) <$> order)
    active_hosts =
  if decide (Forall (λ i, i < length candidates)%nat order) then
    Ret (active_hosts ++
         omap (λ i, candidates !! i ≫=
                    λ ip, if alive net timeout ip then Some ip else None)
              order)
  else Raise IndexError.
Proof.
  intros Hne. revert active_hosts.
  induction order as [|i order IH]; intros active_hosts.
  - cbn. by rewrite app_nil_r.
  - cbn [fmap list_fmap collect_active omap list_omap].
    destruct (candidates !! i) as [ip|] eqn:E; cbn [from_option mbind].
    + pose proof (lookup_lt_Some _ _ _ E) as Hlt.
      assert (ip ≠ EmptyString) as Hip.
      { eapply Forall_forall in Hne; [done|]. by eapply list_elem_of_lookup_2. }
      rewrite IH. cbn [option_bind].
      destruct (decide (Forall _ order)) as [Ho|Ho].
      * rewrite decide_True by by constructor.
        destruct (alive net timeout ip); cbn [truthy default]; [|done].
        destruct ip; [done|]. by rewrite <- app_assoc.
      * rewrite decide_False; [done|]. by intros [_ ?]%Forall_cons.
    + apply lookup_ge_None in E.
      rewrite decide_False; [done|]. intros [? _]%Forall_cons. lia.
Qed.

Lemma live_hosts_elem_of net network_prefix timeout ip :
  ip ∈ live_hosts net network_prefix timeout ↔
  ip ∈ ips network_prefix ∧ alive net timeout ip = true.
Proof. unfold live_hosts. rewrite list_elem_of_filter. tauto. Qed.

(** Under every order of completion [scan_network] returns the candidates
    found alive, by increasing final octet. *)
Lemma scan_network_value net network_prefix timeout order w :
  completion_order (length (ips network_prefix)) order →
  (scan_network net network_prefix timeout order w).1 =
  Ret (live_hosts net network_prefix timeout).
Proof.
  intros Horder. unfold scan_network, bind, ThreadPoolExecutor.
  change (50 <=? 0) with false. cbn [ret].
  set (oi := λ i : nat,
    from_option (λ ip, Ret (if alive net timeout ip then Some ip else None))
                (Raise IndexError) (ips network_prefix !! i)).
  assert ((as_completed (check_host net timeout <$> ips network_prefix)
             order w).1 = (λ i, (i, oi i)) <$> order) as Hout.
  { apply as_completed_outcomes.
    - intros i task w2. rewrite list_lookup_fmap. unfold oi.
      destruct (ips network_prefix !! i) as [ip|]; [|done].
      intros [= <-]. apply check_host_value.
    - rewrite length_fmap. by apply completion_order_lt. }
  destruct (as_completed _ order w) as [completed w1].
  cbn [fst] in Hout. subst completed. unfold oi.
  rewrite collect_active_eq.
  2:{ apply Forall_forall. intros ip. apply ips_nonempty. }
  rewrite decide_True by by apply completion_order_lt.
  cbn [app fst].
  apply (sorted_canonical last_octet octet).
  - apply Forall_forall. intros ip [Hip _]%live_hosts_elem_of.
    by apply octet_ips in Hip as [? _].
  - apply StronglySorted_filter, ips_sorted.
  - rewrite Horder.
    rewrite (omap_lookup_seq _ [] (ips network_prefix)).
    by rewrite omap_filter_bool.
Qed.

Lemma completion_order_ips network_prefix order :
  completion_order 254 order →
  completion_order (length (ips network_prefix)) order.
Proof. by rewrite ips_length. Qed.

(** C7.  The claim fails on the code.  Host 10.0.0.7 listens on 443, one
    of the burst ports, and refuses 80: a probe of 443 returns [True], yet
    [check_host] returns [None] and [scan_network] leaves the address out,
    under an order of completion that is not the order of submission.
    [check_host] makes its four attempts on one socket: the attempt on 443
    follows the refused one on 80 on that socket and is answered from the
    state of the socket, not by the host.  The other half of the claim holds:
    on 10.0.0.2, which listens on 22, the check returns the address at the
    first attempt answered 0 and makes none on 445. *)
Theorem check_host_misses_port_after_refused_one :
  "10.0.0.7" ∈ ips "10.0.0" ∧
  443 ∈ burst_ports ∧
  (scan_port lan "10.0.0.7" 443 (1 # 2) w0).1 = Ret true ∧
  (check_host lan (1 # 2) "10.0.0.7" w0).1 = Ret None ∧
  trace (check_host lan (1 # 2) "10.0.0.7" w0).2 =
    [Ev_socket 3; Ev_settimeout 3 (1 # 2); Ev_connect_ex 3 "10.0.0.7" 80;
     Ev_connect_ex 3 "10.0.0.7" 443; Ev_connect_ex 3 "10.0.0.7" 22;
     Ev_connect_ex 3 "10.0.0.7" 445; Ev_close 3] ∧
  (scan_network lan "10.0.0" (1 # 2) (reverse (seq 0 254)) w0).1 =
    Ret ["10.0.0.2"] ∧
  (check_host lan (1 # 2) "10.0.0.2" w0).1 = Ret (Some "10.0.0.2") ∧
  trace (check_host lan (1 # 2) "10.0.0.2" w0).2 =
    [Ev_socket 3; Ev_settimeout 3 (1 # 2); Ev_connect_ex 3 "10.0.0.2" 80;
     Ev_connect_ex 3 "10.0.0.2" 443; Ev_connect_ex 3 "10.0.0.2" 22;
     Ev_close 3].
Proof.
  split; [|split].
  - apply elem_of_ips. exists 7. split; [lia|reflexivity].
  - repeat constructor.
  - rewrite scan_network_value
      by apply completion_order_ips, reverse_Permutation.
    repeat split; by vm_compute.
Qed.



(** C9.  For every prefix the candidates are the 254 addresses prefix.1 to
    prefix.254, without repetition; prefix.0 and prefix.255 are not among
    them.  Under every order of completion the list [scan_network] returns
    holds candidates only, each at most once. *)
Theorem scan_network_candidates net network_prefix timeout order w :
  completion_order 254 order →
  length (ips network_prefix) = 254%nat ∧
  NoDup (ips network_prefix) ∧
  (∀ ip, ip ∈ ips network_prefix ↔
         ∃ i : Z, 1 ≤ i ≤ 254 ∧ ip = network_prefix +:+ "." +:+ pretty i) ∧
  (network_prefix +:+ ".0" ∉ ips network_prefix) ∧
  (network_prefix +:+ ".255" ∉ ips network_prefix) ∧
  ∃ hosts,
    (scan_network net network_prefix timeout order w).1 = Ret hosts ∧
    hosts ⊆ ips network_prefix ∧
    NoDup hosts.
Proof.
  intros Horder.
  split; [apply ips_length|]. split; [apply ips_NoDup|].
  split; [apply elem_of_ips|].
  assert (∀ s k, int s = Ret k → ¬ 1 ≤ k ≤ 254 →
                 split "." s = [s] →
                 network_prefix +:+ String "." s ∉ ips network_prefix)
    as Hout.
  { intros s k Hint Hk Hsplit Hin.
    apply octet_ips in Hin as (Hoct & Hrange & _).
    unfold last_octet in Hoct. rewrite last_split_app, Hsplit in Hoct.
    cbn [last] in Hoct. rewrite Hint in Hoct. injection Hoct as ->. lia. }
  split; [by apply (Hout "0" 0); [|lia|]|].
  split; [by apply (Hout "255" 255); [|lia|]|].
  exists (live_hosts net network_prefix timeout).
  split; [by apply scan_network_value, completion_order_ips|]. split.
  - intros ip. by intros [? _]%live_hosts_elem_of.
  - apply NoDup_filter, ips_NoDup.
Qed.

Lemma scan_network_candidates_witness :
  length (ips "10.0.0") = 254%nat ∧
  NoDup (ips "10.0.0") ∧
  (∀ ip, ip ∈ ips "10.0.0" ↔
         ∃ i : Z, 1 ≤ i ≤ 254 ∧ ip = "10.0.0" +:+ "." +:+ pretty i) ∧
  ("10.0.0" +:+ ".0" ∉ ips "10.0.0") ∧
  ("10.0.0" +:+ ".255" ∉ ips "10.0.0") ∧
  ∃ hosts,
    (scan_network lan "10.0.0" (1 # 2) (reverse (seq 0 254)) w0).1
      = Ret hosts ∧
    hosts ⊆ ips "10.0.0" ∧
    NoDup hosts.
Proof. apply scan_network_candidates, reverse_Permutation. Defined.

(** ** Decimal text *)

Lemma digit_of_pretty_N_char (d : N) :
  (d < 10)%N → digit_of (pretty_N_char d) = Some (Z.of_N d).
Proof.
  intros Hd.
  assert (d = 0 ∨ d = 1 ∨ d = 2 ∨ d = 3 ∨ d = 4 ∨ d = 5 ∨ d = 6 ∨
          d = 7 ∨ d = 8 ∨ d = 9)%N as H by lia.
  repeat (destruct H as [->|H]; [done|]). by subst.
Qed.

(** Reading the digits [pretty_N_go] puts in front of [s]. *)
Lemma int_digits_pretty_N_go (x : N) :
  ∃ k, 0 ≤ k ∧ ∀ s acc,
    int_digits (pretty_N_go x s) acc =
    int_digits s (acc * 10 ^ k + Z.of_N x).
Proof.
  induction (N.lt_wf_0 x) as [x _ IH].
  destruct (decide (x = 0%N)) as [->|Hx].
  { exists 0. split; [done|]. intros s acc. rewrite pretty_N_go_0.
    f_equal. lia. }
  destruct (IH (x `div` 10)%N) as (k & Hk & Hgo).
  { apply N.div_lt; lia. }
  exists (Z.succ k). split; [lia|]. intros s acc.
  rewrite pretty_N_go_step by lia. rewrite Hgo. cbn [int_digits].
  rewrite digit_of_pretty_N_char by (apply N.mod_lt; lia).
  f_equal. rewrite Z.pow_succ_r by done.
  rewrite N2Z.inj_div, N2Z.inj_mod.
  pose proof (Z.div_mod (Z.of_N x) 10). change (Z.of_N 10) with 10. lia.
Qed.

Lemma all_digits_pretty_N_go (x : N) s :
  all_chars is_digit s = true → all_chars is_digit (pretty_N_go x s) = true.
Proof.
  revert s. induction (N.lt_wf_0 x) as [x _ IH]; intros s Hs.
  destruct (decide (x = 0%N)) as [->|Hx]; [by rewrite pretty_N_go_0|].
  rewrite pretty_N_go_step by lia. apply IH; [apply N.div_lt; lia|].
  cbn [all_chars]. rewrite Hs, andb_true_r. unfold is_digit.
  by rewrite digit_of_pretty_N_char by (apply N.mod_lt; lia).
Qed.

Lemma pretty_N_go_nonempty (x : N) s :
  (0 < x)%N ∨ s ≠ EmptyString → pretty_N_go x s ≠ EmptyString.
Proof.
  revert s. induction (N.lt_wf_0 x) as [x _ IH]; intros s Hs.
  destruct (decide (x = 0%N)) as [->|Hx].
  { rewrite pretty_N_go_0. destruct Hs; [lia|done]. }
  rewrite pretty_N_go_step by lia. apply IH; [apply N.div_lt; lia|].
  by right.
Qed.

(** The decimal text of a natural number: digits only, at least one, and
    read back by [int_digits]. *)
Lemma pretty_N_digits (n : N) :
  pretty n ≠ EmptyString ∧ all_chars is_digit (pretty n) = true ∧
  int_digits (pretty n) 0 = Some (Z.of_N n).
Proof.
  unfold pretty, pretty_N. case_decide as Hn; [by subst|].
  split; [apply pretty_N_go_nonempty; lia|].
  split; [by apply all_digits_pretty_N_go|].
  destruct (int_digits_pretty_N_go n) as (k & _ & ->). by cbn.
Qed.

Lemma digit_not_sign c :
  is_digit c = true →
  c ≠ "-"%char ∧ c ≠ "+"%char ∧ c ≠ "_"%char ∧ c ≠ ","%char ∧
  is_space c = false.
Proof. by destruct c as [[] [] [] [] [] [] [] []]. Qed.

Lemma all_chars_impl (P Q : ascii → bool) s :
  (∀ c, P c = true → Q c = true) →
  all_chars P s = true → all_chars Q s = true.
Proof.
  intros HPQ. induction s as [|c s IH]; [done|]. cbn.
  intros [Hc Hs]%andb_true_iff. by rewrite (HPQ _ Hc), IH.
Qed.

Lemma count_char_all_chars (P : ascii → bool) c s :
  P c = false → all_chars P s = true → count_char c s = O.
Proof.
  intros Hc. induction s as [|c' s IH]; [done|]. cbn.
  intros [Hc' Hs]%andb_true_iff. rewrite IH by done.
  destruct (Ascii.eqb_spec c' c) as [->|]; [congruence|done].
Qed.

Lemma lstrip_id c s : is_space c = false → lstrip (String c s) = String c s.
Proof. intros H. cbn. by rewrite H. Qed.

Lemma rstrip_id s :
  all_chars (λ c, negb (is_space c)) s = true → rstrip s = s.
Proof.
  induction s as [|c s IH]; [done|]. cbn.
  intros [Hc Hs]%andb_true_iff. rewrite IH by done.
  apply negb_true_iff in Hc. rewrite Hc. by destruct s.
Qed.

Lemma strip_id c s :
  all_chars (λ c, negb (is_space c)) (String c s) = true →
  strip (String c s) = String c s.
Proof.
  intros H. unfold strip. rewrite lstrip_id; [by apply rstrip_id|].
  cbn in H. apply andb_true_iff in H as [H _]. by apply negb_true_iff.
Qed.

Lemma int_digits_us_digits s acc b :
  all_chars is_digit s = true → s ≠ EmptyString ∨ b = true →
  int_digits_us s acc b = int_digits s acc.
Proof.
  revert acc b. induction s as [|c s IH]; intros acc b Hs Hb.
  - destruct Hb as [? | ->]; done.
  - cbn in *. apply andb_true_iff in Hs as [Hc Hs]. unfold is_digit in Hc.
    destruct (digit_of c); [|done]. apply IH; [done|by right].
Qed.

Lemma digits_no_space s :
  all_chars is_digit s = true →
  all_chars (λ c, negb (is_space c)) s = true.
Proof.
  apply all_chars_impl. intros c Hc.
  apply digit_not_sign in Hc as (_ & _ & _ & _ & Hsp). by rewrite Hsp.
Qed.

(** Both readings of [int] give back the number a digit string, with or
    without a minus sign, stands for. *)
Lemma int_of_digits s n :
  s ≠ EmptyString → all_chars is_digit s = true →
  int_digits s 0 = Some n →
  (int s = Ret n ∧ int_text s = Ret n) ∧
  (int ("-" +:+ s) = Ret (- n) ∧ int_text ("-" +:+ s) = Ret (- n)).
Proof.
  intros Hne Hs Hn. destruct s as [|c s]; [done|].
  pose proof Hs as Hc. cbn in Hc. apply andb_true_iff in Hc as [Hc _].
  destruct (digit_not_sign c Hc) as (Hm & Hp & _ & _ & Hsp).
  pose proof (digits_no_space _ Hs) as Hns.
  assert (∀ (X : Type) (f : string → X) (g : X),
    match String c s with
    | String "-"%char r => f r
    | String "+"%char r => f r
    | _ => g
    end = g) as Hmatch.
  { intros X f g. clear -Hm Hp.
    by destruct c as [[] [] [] [] [] [] [] []]. }
  split; split.
  - unfold int.
    transitivity (match int_digits (String c s) 0 with
                  | Some n => Ret (1 * n)
                  | None => Raise ValueError
                  end); [|rewrite Hn; f_equal; lia].
    clear -Hm Hp. by destruct c as [[] [] [] [] [] [] [] []].
  - unfold int_text. rewrite strip_id by done.
    transitivity (match int_digits_us (String c s) 0 false with
                  | Some n => Ret (1 * n)
                  | None => Raise ValueError
                  end).
    { clear -Hm Hp. by destruct c as [[] [] [] [] [] [] [] []]. }
    rewrite int_digits_us_digits, Hn by (done || by left). f_equal; lia.
  - change ("-" +:+ String c s) with (String "-" (String c s)).
    unfold int. rewrite Hn. f_equal; lia.
  - change ("-" +:+ String c s) with (String "-" (String c s)).
    unfold int_text. rewrite strip_id.
    2:{ cbn [all_chars] in *. by rewrite Hns. }
    rewrite int_digits_us_digits, Hn by (done || by left). f_equal; lia.
Qed.

(** [int] reads back the decimal text of every integer. *)
Lemma int_pretty (z : Z) :
  int (pretty z) = Ret z ∧ int_text (pretty z) = Ret z.
Proof.
  destruct z as [|p|p]; [done| |].
  - change (pretty (Z.pos p)) with (pretty (N.pos p)).
    destruct (pretty_N_digits (N.pos p)) as (Hne & Hd & Hn).
    by destruct (int_of_digits _ _ Hne Hd Hn) as [? _].
  - change (pretty (Z.neg p)) with ("-" +:+ pretty (N.pos p)).
    destruct (pretty_N_digits (N.pos p)) as (Hne & Hd & Hn).
    by destruct (int_of_digits _ _ Hne Hd Hn) as [_ ?].
Qed.

Lemma pretty_Z_chars (z : Z) :
  pretty z ≠ EmptyString ∧
  all_chars (λ c, is_digit c || Ascii.eqb c "-") (pretty z) = true ∧
  (0 ≤ z → all_chars is_digit (pretty z) = true).
Proof.
  destruct z as [|p|p].
  - done.
  - change (pretty (Z.pos p)) with (pretty (N.pos p)).
    destruct (pretty_N_digits (N.pos p)) as (Hne & Hd & _).
    split; [done|]. split; [|done].
    eapply all_chars_impl; [|exact Hd]. by intros c ->.
  - change (pretty (Z.neg p)) with (String "-" (pretty (N.pos p))).
    destruct (pretty_N_digits (N.pos p)) as (Hne & Hd & _).
    split; [done|]. split; [|lia]. cbn [all_chars].
    apply andb_true_iff. split; [done|].
    eapply all_chars_impl; [|exact Hd]. by intros c ->.
Qed.

Lemma strip_no_space s :
  all_chars (λ c, negb (is_space c)) s = true → strip s = s.
Proof. destruct s as [|c s]; [done|]. apply strip_id. Qed.

Lemma strip_pretty (z : Z) : strip (pretty z) = pretty z.
Proof.
  apply strip_no_space.
  destruct (pretty_Z_chars z) as (_ & H & _).
  eapply all_chars_impl; [|exact H]. intros c [Hc|Hc]%orb_true_iff.
  - apply digit_not_sign in Hc as (_ & _ & _ & _ & Hsp). by rewrite Hsp.
  - by apply Ascii.eqb_eq in Hc as ->.
Qed.

Lemma count_comma_pretty (z : Z) : count_char "," (pretty z) = O.
Proof.
  destruct (pretty_Z_chars z) as (_ & H & _).
  by eapply count_char_all_chars; [|exact H].
Qed.

Lemma count_dash_pretty (z : Z) : 0 ≤ z → count_char "-" (pretty z) = O.
Proof.
  intros Hz. destruct (pretty_Z_chars z) as (_ & _ & H).
  by eapply count_char_all_chars; [|exact (H Hz)].
Qed.

(** ** [split] and [join] *)

Lemma split_no_sep sep s : count_char sep s = O → split sep s = [s].
Proof.
  induction s as [|c s IH]; [done|]. cbn [count_char split].
  destruct (Ascii.eqb c sep); [done|]. intros H. by rewrite IH.
Qed.

Lemma split_app_sep sep s t :
  count_char sep s = O →
  split sep (s +:+ String sep t) = s :: split sep t.
Proof.
  induction s as [|c s IH]; simpl.
  - by rewrite Ascii.eqb_refl.
  - destruct (Ascii.eqb c sep); [done|]. intros H. by rewrite IH.
Qed.

(** A text has one field more than it has separators. *)
Lemma length_split sep s : length (split sep s) = S (count_char sep s).
Proof.
  induction s as [|c s IH]; [done|]. cbn [count_char split].
  destruct (Ascii.eqb c sep); cbn; [by rewrite IH|].
  destruct (split sep s); cbn in *; lia.
Qed.

Lemma split_join sep l :
  l ≠ [] → Forall (λ x, count_char sep x = O) l →
  split sep (join (String sep EmptyString) l) = l.
Proof.
  intros Hne Hl. induction Hl as [|x l Hx Hl IH]; [done|].
  destruct l as [|y l]; [by apply split_no_sep|].
  change (join (String sep EmptyString) (x :: y :: l))
    with (x +:+ String sep (join (String sep EmptyString) (y :: l))).
  rewrite split_app_sep by done. by rewrite IH.
Qed.

Lemma append_nonempty s t : s ≠ EmptyString → s +:+ t ≠ EmptyString.
Proof. by destruct s. Qed.

Lemma truthy_nonempty s : s ≠ EmptyString → truthy (Some s) = true.
Proof. by destruct s. Qed.

Lemma map_outcome_total {A B} (f : A → outcome B) (g : A → B) l :
  Forall (λ x, f x = Ret (g x)) l → map_outcome f l = Ret (g <$> l).
Proof.
  induction 1 as [|x l Hx _ IH]; [done|]. cbn. by rewrite Hx, IH.
Qed.

Lemma map_outcome_raises {A B} (f : A → outcome B) e l :
  (∀ x e', f x = Raise e' → e' = e) →
  (∃ x, x ∈ l ∧ f x = Raise e) →
  map_outcome f l = Raise e.
Proof.
  intros Hf. induction l as [|y l IH]; intros (x & Hx & Hfx).
  { by apply elem_of_nil in Hx. }
  cbn. destruct (f y) as [b|e'] eqn:E; [|by rewrite (Hf _ _ E)].
  apply elem_of_cons in Hx as [->|Hx]; [congruence|].
  rewrite IH; [done|]. eauto.
Qed.

Lemma int_text_raises s e : int_text s = Raise e → e = ValueError.
Proof.
  unfold int_text.
  destruct (match strip s with
            | String "-"%char r => (-1, r)
            | String "+"%char r => (1, r)
            | _ => (1, strip s)
            end) as [sign body].
  destruct (int_digits_us body 0 false); [done|]. by intros [= <-].
Qed.

(** ** The ports of the [ports] command *)

(** X1.  A [--list] value written as the decimal numbers of a non-empty
    list of ports, separated by commas, is read back as that list, in that
    order and with its repetitions, whatever [--range] says. *)
Theorem ports_argument_list_round_trip (ports : list Z) range_arg :
  ports ≠ [] →
  ports_argument (Some (join "," (pretty <$> ports))) range_arg = Ret ports.
Proof.
  intros Hne. unfold ports_argument.
  assert (join "," (pretty <$> ports) ≠ EmptyString) as Hjoin.
  { destruct ports as [|p [|q ports]]; [done|..]; cbn [fmap list_fmap join].
    - apply pretty_Z_chars.
    - apply append_nonempty, pretty_Z_chars. }
  rewrite truthy_nonempty by done. cbn [default from_option id].
  rewrite split_join.
  - rewrite (map_outcome_total _ (λ s, default 0 (match int_text s with
                                                    | Ret z => Some z
                                                    | Raise _ => None
                                                    end))).
    + f_equal. rewrite <- list_fmap_compose.
      rewrite <- (list_fmap_id ports) at 2. apply list_fmap_ext.
      intros i p _. cbn. by destruct (int_pretty p) as [_ ->].
    + apply Forall_fmap, Forall_forall. intros p _. cbn.
      rewrite strip_pretty. by destruct (int_pretty p) as [_ ->].
  - by destruct ports.
  - apply Forall_fmap, Forall_forall. intros p _. apply count_comma_pretty.
Qed.

Lemma ports_argument_list_round_trip_witness :
  ports_argument (Some (join "," (pretty <$> [443; 80; 443])))
                 (Some "1-1000") = Ret [443; 80; 443].
Proof. by apply ports_argument_list_round_trip. Defined.

(** X2.  When a field of a non-empty [--list] value is empty or blank (two
    commas in a row, a comma at either end), no port list is produced:
    [ValueError] is raised. *)
Theorem ports_argument_list_blank_field list_arg range_arg :
  list_arg ≠ EmptyString →
  (∃ field, field ∈ split "," list_arg ∧ strip field = EmptyString) →
  ports_argument (Some list_arg) range_arg = Raise ValueError.
Proof.
  intros Hne (field & Hin & Hblank). unfold ports_argument.
  rewrite truthy_nonempty by done. cbn [default from_option id].
  apply map_outcome_raises.
  - intros x e. apply int_text_raises.
  - exists field. split; [done|]. by rewrite Hblank.
Qed.

Lemma ports_argument_list_blank_field_witness :
  ports_argument (Some "80,,443") None = Raise ValueError.
Proof.
  apply ports_argument_list_blank_field; [done|].
  exists EmptyString. split; [|done]. vm_compute. repeat constructor.
Defined.

(** X3.  Without a [--list] value, a [--range] value [a-b] of two
    non-negative decimal numbers gives the ports from [a] to [b], both
    included, in increasing order; when [b] is below [a] the list is
    empty. *)
Theorem ports_argument_range list_arg (a b : Z) :
  truthy list_arg = false → 0 ≤ a → 0 ≤ b →
  ports_argument list_arg (Some (pretty a +:+ "-" +:+ pretty b)) =
    Ret (seqZ a (b + 1 - a)) ∧
  (∀ p, p ∈ seqZ a (b + 1 - a) ↔ a ≤ p ≤ b) ∧
  length (seqZ a (b + 1 - a)) = Z.to_nat (b + 1 - a) ∧
  (b < a → seqZ a (b + 1 - a) = []).
Proof.
  intros Hlist Ha Hb. split; [|split; [|split]].
  - unfold ports_argument. rewrite Hlist.
    rewrite truthy_nonempty by apply append_nonempty, pretty_Z_chars.
    cbn [default from_option id].
    change (pretty a +:+ "-" +:+ pretty b)
      with (pretty a +:+ String "-" (pretty b)).
    rewrite split_app_sep by by apply count_dash_pretty.
    rewrite split_no_sep by by apply count_dash_pretty.
    destruct (int_pretty a) as [_ ->]. by destruct (int_pretty b) as [_ ->].
  - intros p. rewrite elem_of_seqZ. lia.
  - apply length_seqZ.
  - intros Hlt. apply seqZ_nil. lia.
Qed.

Lemma ports_argument_range_witness :
  ports_argument (Some "") (Some (pretty 5 +:+ "-" +:+ pretty 9)) =
    Ret (seqZ 5 (9 + 1 - 5)) ∧
  (∀ p, p ∈ seqZ 5 (9 + 1 - 5) ↔ 5 ≤ p ≤ 9) ∧
  length (seqZ 5 (9 + 1 - 5)) = Z.to_nat (9 + 1 - 5) ∧
  (9 < 5 → seqZ 5 (9 + 1 - 5) = []).
Proof. apply ports_argument_range; [done|lia|lia]. Defined.

(** X4.  Without a [--list] value, a non-empty [--range] value that does
    not hold exactly one dash (a single number, a negative bound, three
    numbers) raises [ValueError]. *)
Theorem ports_argument_range_one_dash list_arg range_arg :
  truthy list_arg = false → range_arg ≠ EmptyString →
  count_char "-" range_arg ≠ 1%nat →
  ports_argument list_arg (Some range_arg) = Raise ValueError.
Proof.
  intros Hlist Hne Hcount. unfold ports_argument. rewrite Hlist.
  rewrite truthy_nonempty by done. cbn [default from_option id].
  pose proof (length_split "-" range_arg) as Hlen.
  destruct (split "-" range_arg) as [|x [|y [|z l]]]; try done.
  cbn in Hlen. lia.
Qed.

Lemma ports_argument_range_one_dash_witness :
  ports_argument None (Some "-1-5") = Raise ValueError.
Proof. by apply ports_argument_range_one_dash. Defined.

(** ** The table of open ports *)

Lemma sorted_ports_Permutation l : sorted_ports l ≡ₚ l.
Proof.
  unfold sorted_ports. rewrite sort_keyed_Permutation.
  rewrite <- list_fmap_compose. by rewrite list_fmap_id.
Qed.

Lemma diagonal_sorted (l : list (Z * Z)) :
  StronglySorted (λ a b, a.1 ≤ b.1) l → Forall (λ a, a.1 = a.2) l →
  StronglySorted Z.le l.*2.
Proof.
  induction 1 as [|a l _ IH Ha]; intros Hd; [constructor|].
  apply Forall_cons in Hd as [Hda Hd]. cbn. constructor; [by apply IH|].
  apply Forall_fmap, Forall_forall. intros b Hb.
  rewrite Forall_forall in Ha, Hd. specialize (Ha _ Hb).
  specialize (Hd _ Hb). cbn. lia.
Qed.

Lemma sorted_ports_sorted l : StronglySorted Z.le (sorted_ports l).
Proof.
  unfold sorted_ports. apply diagonal_sorted; [apply sort_keyed_sorted|].
  rewrite sort_keyed_Permutation. by apply Forall_fmap, Forall_forall.
Qed.

Lemma sorted_NoDup_strict (l : list Z) :
  StronglySorted Z.le l → NoDup l → StronglySorted Z.lt l.
Proof.
  induction 1 as [|x l _ IH Hx]; intros Hnd; [constructor|].
  apply NoDup_cons in Hnd as [Hnin Hnd]. constructor; [by apply IH|].
  apply Forall_forall. intros y Hy. rewrite Forall_forall in Hx.
  specialize (Hx _ Hy). assert (x ≠ y) by (by intros ->). lia.
Qed.

(** What is printed for a dict whose open ports are those with [P]. *)
Lemma format_port_results_for host (results : gmap Z bool) (P : Z → Prop) :
  (∀ port, results !! port = Some true ↔ P port) →
  ∃ open_list : list Z,
    StronglySorted Z.lt open_list ∧
    (∀ port, port ∈ open_list ↔ P port) ∧
    format_port_results host results =
      if decide (open_list = []) then
        [nl +:+ "❌ No open ports found on " +:+ host +:+ nl]
      else
        [nl +:+ "✅ Open ports on " +:+ host +:+ ":" +:+ nl;
         "Port      Service";
         "----------------------------------------"]
        ++ ((λ port, ljust 10 (pretty port) +:+ service_name port)
              <$> open_list)
        ++ [nl +:+ "📊 Total: " +:+ pretty (length open_list)
               +:+ " open port(s) found" +:+ nl].
Proof.
  intros HP.
  set (open_ports := filter (λ kv : Z * bool, kv.2 = true) results).
  set (keys := (map_to_list open_ports).*1).
  exists (sorted_ports keys).
  assert (NoDup keys) as Hnd by apply NoDup_fst_map_to_list.
  split; [|split].
  - apply sorted_NoDup_strict; [apply sorted_ports_sorted|].
    by rewrite sorted_ports_Permutation.
  - intros port. rewrite <- HP, sorted_ports_Permutation. unfold keys.
    rewrite list_elem_of_fmap. split.
    + intros ([k b] & -> & Hin). apply elem_of_map_to_list in Hin.
      apply map_lookup_filter_Some in Hin as [Hl Hb]. cbn in *. by subst.
    + intros Hl. exists (port, true). split; [done|].
      by apply elem_of_map_to_list, map_lookup_filter_Some.
  - unfold format_port_results. fold open_ports. fold keys.
    assert (open_ports = ∅ ↔ sorted_ports keys = []) as Hempty.
    { rewrite <- map_to_list_empty_iff.
      rewrite <- (Permutation_nil_r (sorted_ports keys)).
      rewrite sorted_ports_Permutation, Permutation_nil_r.
      unfold keys. split; [by intros ->|apply fmap_nil_inv]. }
    destruct (decide (open_ports = ∅)) as [He|He].
    + by rewrite decide_True by by apply Hempty.
    + rewrite decide_False by by rewrite <- Hempty.
      assert (size open_ports = length (sorted_ports keys)) as ->; [|done].
      rewrite sorted_ports_Permutation. unfold keys.
      by rewrite length_fmap, length_map_to_list.
Qed.

(** X5.  [format_port_results] prints the open ports only, one row each,
    by strictly increasing port number, whatever the order of the dict,
    between three header lines and a line with their count; when no port of
    the dict is open (an empty dict included) it prints the single line
    saying so. *)
Theorem format_port_results_rows host (results : gmap Z bool) :
  ∃ open_list : list Z,
    StronglySorted Z.lt open_list ∧
    (∀ port, port ∈ open_list ↔ results !! port = Some true) ∧
    format_port_results host results =
      if decide (open_list = []) then
        [nl +:+ "❌ No open ports found on " +:+ host +:+ nl]
      else
        [nl +:+ "✅ Open ports on " +:+ host +:+ ":" +:+ nl;
         "Port      Service";
         "----------------------------------------"]
        ++ ((λ port, ljust 10 (pretty port) +:+ service_name port)
              <$> open_list)
        ++ [nl +:+ "📊 Total: " +:+ pretty (length open_list)
               +:+ " open port(s) found" +:+ nl].
Proof.
  destruct (format_port_results_for host results
              (λ port, results !! port = Some true))
    as (open_list & Hsorted & Hin & Hout); [done|].
  exists open_list. split; [done|]. split; [exact Hin|exact Hout].
Qed.

(** X6.  The report of a scan: for a positive thread count, under every
    order of completion, [format_port_results] applied to what [scan_ports]
    returns prints one row for each distinct requested port on which a probe
    returns [True], by increasing port number, and the single "no open
    ports" line when there is none. *)
Theorem scan_ports_report net host ports timeout threads order w :
  0 < threads → completion_order (length ports) order →
  ∃ results w' (open_list : list Z),
    scan_ports net host ports timeout threads order w = (Ret results, w') ∧
    StronglySorted Z.lt open_list ∧
    (∀ port, port ∈ open_list ↔
             port ∈ ports ∧
             ∀ w1, (scan_port net host port timeout w1).1 = Ret true) ∧
    format_port_results host results =
      if decide (open_list = []) then
        [nl +:+ "❌ No open ports found on " +:+ host +:+ nl]
      else
        [nl +:+ "✅ Open ports on " +:+ host +:+ ":" +:+ nl;
         "Port      Service";
         "----------------------------------------"]
        ++ ((λ port, ljust 10 (pretty port) +:+ service_name port)
              <$> open_list)
        ++ [nl +:+ "📊 Total: " +:+ pretty (length open_list)
               +:+ " open port(s) found" +:+ nl].
Proof.
  intros Hthreads Horder.
  destruct (scan_ports_with_dom (λ port, scan_port net host port timeout)
              ports threads order w Hthreads Horder)
    as (results & w' & Hrun & Hdom & _).
  pose proof (scan_ports_with_lookup _ (λ port, Ret _) _ _ _ _ _ _
                (λ port w1, scan_port_value net host port timeout w1)
                Horder Hrun) as Hlook.
  cbn [recorded] in Hlook.
  destruct (format_port_results_for host results
    (λ port, port ∈ ports ∧
             ∀ w1, (scan_port net host port timeout w1).1 = Ret true))
    as (open_list & Hsorted & Hin & Hout).
  { intros port. split.
    - intros Hp. assert (port ∈ ports) as Hports.
      { apply (elem_of_list_to_set (C := gset Z)). rewrite <- Hdom.
        apply elem_of_dom. eauto. }
      split; [done|]. intros w1.
      rewrite scan_port_value. specialize (Hlook _ Hports). congruence.
    - intros [Hports Htrue]. rewrite (Hlook _ Hports).
      specialize (Htrue w). rewrite scan_port_value in Htrue. congruence. }
  by exists results, w', open_list.
Qed.

Lemma scan_ports_report_witness :
  ∃ results w' (open_list : list Z),
    scan_ports lan "10.0.0.7" [443; 80; 443] 2 100 [2; 0; 1]%nat w0
      = (Ret results, w') ∧
    StronglySorted Z.lt open_list ∧
    (∀ port, port ∈ open_list ↔
             port ∈ [443; 80; 443] ∧
             ∀ w1, (scan_port lan "10.0.0.7" port 2 w1).1 = Ret true) ∧
    format_port_results "10.0.0.7" results =
      if decide (open_list = []) then
        [nl +:+ "❌ No open ports found on " +:+ "10.0.0.7" +:+ nl]
      else
        [nl +:+ "✅ Open ports on " +:+ "10.0.0.7" +:+ ":" +:+ nl;
         "Port      Service";
         "----------------------------------------"]
        ++ ((λ port, ljust 10 (pretty port) +:+ service_name port)
              <$> open_list)
        ++ [nl +:+ "📊 Total: " +:+ pretty (length open_list)
               +:+ " open port(s) found" +:+ nl].
Proof.
  apply scan_ports_report; [lia|].
  unfold completion_order. apply (bool_decide_unpack _). by vm_compute.
Defined.

(** ** Connection attempts and descriptors of a batch *)

Lemma connects_app evs1 evs2 :
  connects (evs1 ++ evs2) = connects evs1 ++ connects evs2.
Proof. apply omap_app. Qed.

(** The attempts of a batch are those of its callables, taken in the order
    of completion. *)
Lemma as_completed_trace {A} (tasks : list (M A))
    (c : nat → list (string * Z)) order w :
  (∀ i task w, tasks !! i = Some task →
     ∃ evs, trace (task w).2 = trace w ++ evs ∧ connects evs = c i) →
  Forall (λ i, i < length tasks)%nat order →
  ∃ evs, trace (as_completed tasks order w).2 = trace w ++ evs ∧
         connects evs = order ≫= c.
Proof.
  intros Hc H. revert w. induction H as [|i rest Hi _ IH]; intros w.
  { exists []. by rewrite app_nil_r. }
  cbn [as_completed].
  destruct (tasks !! i) as [task|] eqn:Htask;
    [|apply lookup_ge_None in Htask; lia].
  destruct (Hc i task w Htask) as (evs1 & Ht1 & Hc1).
  destruct (task w) as [o w1]. cbn [snd] in Ht1.
  destruct (IH w1) as (evs2 & Ht2 & Hc2).
  destruct (as_completed tasks rest w1) as [os w2]. cbn [snd] in *.
  exists (evs1 ++ evs2). split.
  - by rewrite Ht2, Ht1, app_assoc.
  - by rewrite connects_app, Hc1, Hc2, bind_cons.
Qed.

(** A batch takes the world through one step per future. *)
Lemma as_completed_nsteps {A} (tasks : list (M A)) (R : relation World)
    order w :
  (∀ task w, task ∈ tasks → R w (task w).2) →
  Forall (λ i, i < length tasks)%nat order →
  nsteps R (length order) w (as_completed tasks order w).2.
Proof.
  intros HR H. revert w. induction H as [|i rest Hi _ IH]; intros w.
  { constructor. }
  cbn [as_completed length].
  destruct (tasks !! i) as [task|] eqn:Htask;
    [|apply lookup_ge_None in Htask; lia].
  pose proof (HR task w (list_elem_of_lookup_2 _ _ _ Htask)) as Hstep.
  destruct (task w) as [o w1]. specialize (IH w1).
  destruct (as_completed tasks rest w1) as [os w2]. cbn [snd] in *.
  by econstructor.
Qed.

Lemma bind_lookup_seq {A B} (f : A → list B) (l1 l2 : list A) :
  seq (length l1) (length l2) ≫=
    (λ i, from_option f [] ((l1 ++ l2) !! i)) = l2 ≫= f.
Proof.
  revert l1. induction l2 as [|x l2 IH]; intros l1; [done|].
  cbn [length seq]. rewrite !bind_cons.
  rewrite list_lookup_middle by done. cbn [from_option].
  specialize (IH (l1 ++ [x])).
  rewrite <- app_assoc, length_app, Nat.add_1_r in IH. cbn in IH.
  by rewrite IH.
Qed.

Lemma bind_singleton_fmap {A B} (g : A → B) (l : list A) :
  l ≫= (λ x, [g x]) = g <$> l.
Proof. induction l as [|x l IH]; [done|]. by rewrite bind_cons, IH. Qed.

Lemma scan_port_trace net host port timeout w :
  ∃ evs,
    trace (scan_port net host port timeout w).2 = trace w ++ evs ∧
    connects evs =
      match net_socket net, timeout_refused timeout with
      | None, None => [(host, port)]
      | _, _ => []
      end.
Proof.
  rewrite scan_port_eq.
  destruct (net_socket net); [exists []; by rewrite app_nil_r|].
  destruct (timeout_refused timeout); [by eexists|].
  destruct (net_resolve net host); [by eexists|].
  destruct ((port <? 0) || (65535 <? port)); by eexists.
Qed.

Lemma scan_ports_with_world (probe : Z → M bool) ports threads order w :
  0 < threads →
  (scan_ports_with probe ports threads order w).2 =
  (as_completed (probe <$> ports) order w).2.
Proof.
  intros Hthreads. unfold scan_ports_with, bind, ThreadPoolExecutor.
  replace (threads <=? 0) with false by lia. cbn [ret].
  by destruct (as_completed (probe <$> ports) order w).
Qed.

(** X7.  [scan_ports] on an empty list of ports returns the empty dict and
    leaves the world as it is: no socket is created, no call is made. *)
Theorem scan_ports_empty net host timeout threads order w :
  0 < threads →
  scan_ports net host [] timeout threads order w = (Ret ∅, w).
Proof.
  intros Hthreads. unfold scan_ports, scan_ports_with, bind.
  unfold ThreadPoolExecutor. replace (threads <=? 0) with false by lia.
  cbn [ret fmap list_fmap].
  assert (as_completed (A := bool) [] order w = ([], w)) as ->; [|done].
  induction order as [|i order IH]; [done|]. by cbn.
Qed.

Lemma scan_ports_empty_witness :
  scan_ports lan "10.0.0.7" [] 2 100 [] w0 = (Ret ∅, w0).
Proof. apply scan_ports_empty. lia. Defined.

(** X8.  With a granted socket and a timeout that [settimeout] accepts,
    from 0 to [TIMEOUT_MAX], [scan_ports] calls [connect_ex] on the host once
    for each entry of the list of ports, a port listed twice being tried
    twice; no other connection attempt is made. *)
Theorem scan_ports_one_attempt_per_entry net host ports timeout threads
    order w :
  net_socket net = None → (0 <= timeout)%Q → (timeout <= TIMEOUT_MAX)%Q →
  0 < threads → completion_order (length ports) order →
  ∃ evs,
    trace (scan_ports net host ports timeout threads order w).2
      = trace w ++ evs ∧
    connects evs ≡ₚ (λ port, (host, port)) <$> ports.
Proof.
  intros Hsock Hlow Hhigh Hthreads Horder.
  assert (timeout_refused timeout = None) as Htmo
    by by apply timeout_refused_None.
  unfold scan_ports. rewrite scan_ports_with_world by done.
  destruct (as_completed_trace
              ((λ port, scan_port net host port timeout) <$> ports)
              (λ i, from_option (λ port, [(host, port)]) [] (ports !! i))
              order w) as (evs & Htrace & Hconn).
  - intros i task w1. rewrite list_lookup_fmap.
    destruct (ports !! i) as [port|]; [|done]. intros [= <-]. cbn.
    destruct (scan_port_trace net host port timeout w1) as (evs & ? & Hc).
    rewrite Hsock, Htmo in Hc. eauto.
  - rewrite length_fmap. by apply completion_order_lt.
  - exists evs. split; [done|]. rewrite Hconn, Horder.
    rewrite (bind_lookup_seq _ [] ports). by rewrite bind_singleton_fmap.
Qed.

Lemma scan_ports_one_attempt_per_entry_witness :
  ∃ evs,
    trace (scan_ports lan "10.0.0.7" [443; 80; 443] 2 100
             [2; 0; 1]%nat w0).2 = trace w0 ++ evs ∧
    connects evs ≡ₚ (λ port, ("10.0.0.7", port)) <$> [443; 80; 443].
Proof.
  apply scan_ports_one_attempt_per_entry; [done|done|done|lia|].
  unfold completion_order. apply (bool_decide_unpack _). by vm_compute.
Defined.

Lemma fresh_fds_next w : fresh_fds w → socks w !! next_fd w = None.
Proof.
  intros Hfresh. destruct (socks w !! next_fd w) eqn:E; [|done].
  assert (is_open (next_fd w) w) as Hopen by (unfold is_open; eauto).
  apply Hfresh in Hopen. lia.
Qed.

(** A probe whose calls all return gives back the descriptor it took. *)
Lemma scan_port_balanced net host port timeout w :
  timeout_refused timeout = None → net_resolve net host = None →
  0 ≤ port ≤ 65535 → fresh_fds w →
  fresh_fds (scan_port net host port timeout w).2 ∧
  socks (scan_port net host port timeout w).2 = socks w.
Proof.
  intros Ht Hr Hp Hfresh. rewrite scan_port_eq, Ht, Hr.
  replace ((port <? 0) || (65535 <? port)) with false by lia.
  destruct (net_socket net); [done|]. cbn [snd socks next_fd].
  rewrite delete_id by by apply fresh_fds_next. split; [|done].
  intros fd Hfd. unfold is_open in Hfd. cbn in Hfd.
  assert (is_open fd w) as Hopen by done.
  apply Hfresh in Hopen. cbn. lia.
Qed.

(** X9.  Started in a world whose descriptors are all below [next_fd],
    with a timeout that [settimeout] accepts, from 0 to [TIMEOUT_MAX], a host
    that resolves and ports in 0-65535, [scan_ports] calls [close] on every
    socket it creates: the table of sockets not yet closed is the same after
    the batch as before. *)
Theorem scan_ports_releases_descriptors net host ports timeout threads
    order w :
  (0 <= timeout)%Q → (timeout <= TIMEOUT_MAX)%Q →
  net_resolve net host = None →
  Forall (λ port, 0 ≤ port ≤ 65535) ports →
  fresh_fds w →
  0 < threads → completion_order (length ports) order →
  socks (scan_ports net host ports timeout threads order w).2 = socks w.
Proof.
  intros Hlow Hhigh Hres Hports Hfresh Hthreads Horder.
  assert (timeout_refused timeout = None) as Htmo
    by by apply timeout_refused_None.
  unfold scan_ports. rewrite scan_ports_with_world by done.
  pose proof (as_completed_nsteps
    ((λ port, scan_port net host port timeout) <$> ports)
    (λ w1 w2, fresh_fds w1 → fresh_fds w2 ∧ socks w2 = socks w1)
    order w) as Hsteps.
  cut (fresh_fds
         (as_completed ((λ port, scan_port net host port timeout) <$> ports)
            order w).2 ∧
       socks (as_completed ((λ port, scan_port net host port timeout)
                              <$> ports) order w).2 = socks w);
    [by intros [_ ?]|].
  revert Hfresh.
  induction Hsteps as [w1|n w1 w2 w3 Hstep _ IH]; [done| |..].
  - intros Hf. destruct (Hstep Hf) as [Hf2 Hs2].
    destruct (IH Hf2) as [Hf3 Hs3]. split; [done|congruence].
  - intros task w1 (port & -> & Hport)%list_elem_of_fmap Hf.
    apply scan_port_balanced; [done..| |done].
    rewrite Forall_forall in Hports. by apply Hports.
  - rewrite length_fmap. by apply completion_order_lt.
Qed.

Lemma fresh_fds_w0 : fresh_fds w0.
Proof. intros fd [x Hx]. cbn in Hx. by rewrite lookup_empty in Hx. Defined.

Lemma scan_ports_releases_descriptors_witness :
  socks (scan_ports lan "10.0.0.7" [443; 80; 443] 2 100
           [2; 0; 1]%nat w0).2 = socks w0.
Proof.
  apply scan_ports_releases_descriptors;
    [done|done|done| |apply fresh_fds_w0|lia|].
  - repeat constructor; lia.
  - unfold completion_order. apply (bool_decide_unpack _). by vm_compute.
Defined.

(** A probe in which [settimeout] or [connect_ex] raises creates one
    socket and makes no call of [close]. *)
Lemma scan_port_never_closes net host port timeout w :
  net_socket net = None →
  is_Some (timeout_refused timeout) ∨ is_Some (net_resolve net host) →
  ∃ evs,
    trace (scan_port net host port timeout w).2 = trace w ++ evs ∧
    length (created evs) = 1%nat ∧ closed evs = [].
Proof.
  intros Hs Hbad. rewrite scan_port_eq, Hs.
  destruct (timeout_refused timeout); [by eexists|].
  destruct Hbad as [[? [=]]|[e He]]. rewrite He. by eexists.
Qed.

(** X10.  With a granted socket, when [settimeout] refuses the timeout
    (negative, or above [TIMEOUT_MAX]) or the host does not resolve,
    [scan_ports] creates one socket for each entry of the list of ports and
    makes no call of [close] at all. *)
Theorem scan_ports_failed_probes_never_close net host ports timeout threads
    order w :
  net_socket net = None →
  (timeout < 0)%Q ∨ (TIMEOUT_MAX < timeout)%Q ∨
    is_Some (net_resolve net host) →
  0 < threads → completion_order (length ports) order →
  ∃ evs,
    trace (scan_ports net host ports timeout threads order w).2
      = trace w ++ evs ∧
    length (created evs) = length ports ∧
    closed evs = [].
Proof.
  intros Hsock Hbad Hthreads Horder.
  assert (is_Some (timeout_refused timeout) ∨ is_Some (net_resolve net host))
    as Hbad'.
  { destruct Hbad as [?|[?|?]]; [left|left|by right];
      apply timeout_refused_out; tauto. }
  unfold scan_ports. rewrite scan_ports_with_world by done.
  pose proof (as_completed_nsteps
    ((λ port, scan_port net host port timeout) <$> ports)
    (λ w1 w2, ∃ evs, trace w2 = trace w1 ++ evs ∧
                     length (created evs) = 1%nat ∧ closed evs = [])
    order w) as Hsteps.
  assert (length order = length ports) as Hlen.
  { rewrite Horder. apply length_seq. }
  rewrite <- Hlen. clear Hlen.
  induction Hsteps as [w1|n w1 w2 w3 Hstep _ IH].
  - exists []. by rewrite app_nil_r.
  - destruct Hstep as (evs1 & Ht1 & Hc1 & Hd1).
    destruct IH as (evs2 & Ht2 & Hc2 & Hd2).
    exists (evs1 ++ evs2). split; [by rewrite Ht2, Ht1, app_assoc|].
    unfold created, closed in *.
    rewrite !omap_app, length_app, Hc1, Hc2, Hd1, Hd2. done.
  - intros task w1 (port & -> & Hport)%list_elem_of_fmap.
    by apply scan_port_never_closes.
  - rewrite length_fmap. by apply completion_order_lt.
Qed.

Lemma scan_ports_failed_probes_never_close_witness :
  ∃ evs,
    trace (scan_ports lan "no.such.host" [443; 80; 443] 2 100
             [2; 0; 1]%nat w0).2 = trace w0 ++ evs ∧
    length (created evs) = length [443; 80; 443] ∧
    closed evs = [].
Proof.
  apply scan_ports_failed_probes_never_close;
    [done|right; right; by eexists|lia|].
  unfold completion_order. apply (bool_decide_unpack _). by vm_compute.
Defined.

(** ** Connection attempts of a sweep *)

Lemma connects_connect_ex fd ip (ports : list Z) :
  connects (Ev_connect_ex fd ip <$> ports) = (λ port, (ip, port)) <$> ports.
Proof. induction ports as [|port ports IH]; [done|]. cbn. by f_equal. Qed.

Lemma check_host_trace net timeout ip w :
  ∃ evs,
    trace (check_host net timeout ip w).2 = trace w ++ evs ∧
    connects evs = burst_attempts net timeout ip.
Proof.
  rewrite check_host_eq. unfold burst_attempts.
  destruct (net_socket net); [exists []; by rewrite app_nil_r|].
  destruct (timeout_refused timeout); [by eexists|].
  destruct (net_resolve net ip); [by eexists|].
  eexists. split; [done|]. cbn [snd trace].
  rewrite !connects_app, connects_connect_ex. cbn. by rewrite app_nil_r.
Qed.

Lemma attempted_bounds net ip tmo earlier ports :
  attempted net ip tmo earlier ports ⊆ ports ∧
  (length (attempted net ip tmo earlier ports) ≤ length ports)%nat.
Proof.
  revert earlier. induction ports as [|port rest IH]; intros earlier; [done|].
  cbn. destruct (net_connect net earlier ip port tmo =? 0); cbn.
  - split; [|lia]. intros q ->%list_elem_of_singleton. left.
  - destruct (IH (earlier ++ [(ip, port)])) as [IHin IHlen].
    split; [|lia]. intros q [->|Hq]%elem_of_cons; [left|right; auto].
Qed.

Lemma burst_attempts_bounds net timeout ip :
  Forall (λ hp, hp.1 = ip ∧ hp.2 ∈ burst_ports)
         (burst_attempts net timeout ip) ∧
  (length (burst_attempts net timeout ip) ≤ 4)%nat.
Proof.
  unfold burst_attempts.
  destruct (net_socket net); [split; [constructor|cbn; lia]|].
  destruct (timeout_refused timeout); [split; [constructor|cbn; lia]|].
  destruct (net_resolve net ip).
  - split; [|cbn; lia]. repeat constructor.
  - destruct (attempted_bounds net ip (Some timeout) [] burst_ports)
      as [Hin Hlen].
    split; [|by rewrite length_fmap].
    apply Forall_fmap, Forall_forall. intros port Hport. cbn. auto.
Qed.

Lemma burst_attempts_first net timeout ip :
  net_socket net = None → timeout_refused timeout = None →
  (ip, 80) ∈ burst_attempts net timeout ip.
Proof.
  intros Hs Ht. unfold burst_attempts. rewrite Hs, Ht.
  destruct (net_resolve net ip); [left|].
  unfold burst_ports. cbn [attempted].
  destruct (net_connect net [] ip 80 (Some timeout) =? 0); left.
Qed.

Lemma length_bind_le {A B} (f : A → list B) (k : nat) (l : list A) :
  (∀ x, x ∈ l → (length (f x) ≤ k)%nat) →
  (length (l ≫= f) ≤ k * length l)%nat.
Proof.
  induction l as [|x l IH]; intros Hf; [cbn; lia|].
  rewrite bind_cons, length_app. cbn [length].
  specialize (Hf x (list_elem_of_here _ _)) as Hx.
  assert (length (l ≫= f) ≤ k * length l)%nat
    by (apply IH; intros; apply Hf; by right).
  lia.
Qed.

Lemma scan_network_world net network_prefix timeout order w :
  (scan_network net network_prefix timeout order w).2 =
  (as_completed (check_host net timeout <$> ips network_prefix) order w).2.
Proof.
  unfold scan_network, bind, ThreadPoolExecutor.
  change (50 <=? 0) with false. cbn [ret].
  destruct (as_completed _ order w) as [completed w1].
  by destruct (collect_active completed []).
Qed.

(** The attempts of a sweep are those of [check_host] on the candidates,
    taken in the order of completion. *)
Lemma scan_network_trace net network_prefix timeout order w :
  completion_order 254 order →
  ∃ evs,
    trace (scan_network net network_prefix timeout order w).2
      = trace w ++ evs ∧
    connects evs ≡ₚ ips network_prefix ≫= burst_attempts net timeout.
Proof.
  intros Horder%(completion_order_ips network_prefix).
  rewrite scan_network_world.
  destruct (as_completed_trace
              (check_host net timeout <$> ips network_prefix)
              (λ i, from_option (burst_attempts net timeout) []
                                (ips network_prefix !! i))
              order w) as (evs & Htrace & Hconn).
  - intros i task w1. rewrite list_lookup_fmap.
    destruct (ips network_prefix !! i) as [ip|]; [|done]. intros [= <-].
    apply check_host_trace.
  - rewrite length_fmap. by apply completion_order_lt.
  - exists evs. split; [done|]. rewrite Hconn, Horder.
    by rewrite (bind_lookup_seq _ [] (ips network_prefix)).
Qed.

(** X11.  Under every order of completion, the connection attempts of
    [scan_network] are all on one of the 254 candidate addresses and on one
    of the ports 80, 443, 22, 445, and there are at most 1016 of them. *)
Theorem scan_network_attempts_in_range net network_prefix timeout order w :
  completion_order 254 order →
  ∃ evs,
    trace (scan_network net network_prefix timeout order w).2
      = trace w ++ evs ∧
    Forall (λ hp : string * Z,
              hp.1 ∈ ips network_prefix ∧ hp.2 ∈ [80; 443; 22; 445])
           (connects evs) ∧
    (length (connects evs) ≤ 1016)%nat.
Proof.
  intros Horder.
  destruct (scan_network_trace net network_prefix timeout order w Horder)
    as (evs & Htrace & Hconn).
  exists evs. split; [done|]. rewrite Hconn. split.
  - apply Forall_bind, Forall_forall. intros ip Hip. cbn.
    destruct (burst_attempts_bounds net timeout ip) as [Hall _].
    eapply Forall_impl; [exact Hall|]. by intros [h p] [-> ?].
  - pose proof (length_bind_le (burst_attempts net timeout) 4
                  (ips network_prefix)) as Hlen.
    rewrite ips_length in Hlen. apply Hlen. intros ip _.
    apply burst_attempts_bounds.
Qed.

Lemma scan_network_attempts_in_range_witness :
  ∃ evs,
    trace (scan_network lan "10.0.0" (1 # 2) (reverse (seq 0 254)) w0).2
      = trace w0 ++ evs ∧
    Forall (λ hp : string * Z,
              hp.1 ∈ ips "10.0.0" ∧ hp.2 ∈ [80; 443; 22; 445])
           (connects evs) ∧
    (length (connects evs) ≤ 1016)%nat.
Proof. apply scan_network_attempts_in_range, reverse_Permutation. Defined.

(** X12.  With a granted socket and a timeout that [settimeout] accepts,
    from 0 to [TIMEOUT_MAX], [scan_network] tries port 80 on every one of the
    254 candidates, whether or not the address resolves. *)
Theorem scan_network_tries_every_candidate net network_prefix timeout
    order w ip :
  net_socket net = None → (0 <= timeout)%Q → (timeout <= TIMEOUT_MAX)%Q →
  completion_order 254 order →
  ip ∈ ips network_prefix →
  ∃ evs,
    trace (scan_network net network_prefix timeout order w).2
      = trace w ++ evs ∧
    (ip, 80) ∈ connects evs.
Proof.
  intros Hsock Hlow Hhigh Horder Hip.
  assert (timeout_refused timeout = None) as Htmo
    by by apply timeout_refused_None.
  destruct (scan_network_trace net network_prefix timeout order w Horder)
    as (evs & Htrace & Hconn).
  exists evs. split; [done|]. rewrite Hconn.
  apply list_elem_of_bind. exists ip. split; [|done].
  by apply burst_attempts_first.
Qed.

Lemma scan_network_tries_every_candidate_witness :
  ∃ evs,
    trace (scan_network lan "10.0.0" (1 # 2) (reverse (seq 0 254)) w0).2
      = trace w0 ++ evs ∧
    ("10.0.0.200", 80) ∈ connects evs.
Proof.
  apply scan_network_tries_every_candidate;
    [done|done|done|apply reverse_Permutation|].
  apply elem_of_ips. exists 200. split; [lia|reflexivity].
Defined.

(** X13.  [scan_network] reports no failure: when no socket can be
    created, when the timeout is negative or when no candidate address
    resolves, it returns the empty list, as it does when no host answers. *)
Theorem scan_network_failures_give_empty net network_prefix timeout order w :
  is_Some (net_socket net) ∨ (timeout < 0)%Q ∨
    (∀ ip, ip ∈ ips network_prefix → is_Some (net_resolve net ip)) →
  completion_order 254 order →
  (scan_network net network_prefix timeout order w).1 = Ret [].
Proof.
  intros Hfail Horder.
  rewrite scan_network_value by by apply completion_order_ips.
  f_equal. apply elem_of_nil_inv. intros ip.
  rewrite live_hosts_elem_of. intros [Hip Halive]. unfold alive in Halive.
  destruct Hfail as [[e He]|[Ht|Hres]].
  - by rewrite He in Halive.
  - destruct (timeout_refused_out timeout) as [e He]; [by left|].
    rewrite He in Halive. by destruct (net_socket net).
  - destruct (Hres ip Hip) as [e He]. rewrite He in Halive.
    by destruct (net_socket net), (timeout_refused timeout).
Qed.

Lemma scan_network_failures_give_empty_witness :
  (scan_network lan "10.0.0" (-1) (reverse (seq 0 254)) w0).1 = Ret [].
Proof.
  apply scan_network_failures_give_empty; [|apply reverse_Permutation].
  right; left. reflexivity.
Defined.

(** ** The sort key *)

(** X14.  The sort key of [scan_network] reads the decimal number after
    the last dot, whatever stands before it: for every text [p] and every
    integer [n] the key of [p.n] is [n].  A text that ends in a dot has no
    key: [ValueError]. *)
Theorem last_octet_reads_last_field (p : string) (n : Z) :
  last_octet (p +:+ "." +:+ pretty n) = Ret n ∧
  last_octet (p +:+ ".") = Raise ValueError.
Proof.
  unfold last_octet. split.
  - change ("." +:+ pretty n) with (String "." (pretty n)).
    rewrite last_split_app, split_no_sep.
    + cbn [last]. by destruct (int_pretty n) as [-> _].
    + destruct (pretty_Z_chars n) as (_ & H & _).
      by eapply count_char_all_chars; [|exact H].
  - change (p +:+ ".") with (p +:+ String "." EmptyString).
    by rewrite last_split_app.
Qed.

(** ** Failures in the report *)

(** X15.  When no socket can be created, when the timeout is negative or
    when the host does not resolve, [scan_ports] maps every requested port to
    [False] and the report printed from it is the single "no open ports"
    line, as for a host whose ports are all closed. *)
Theorem failed_scan_reports_no_open_ports net host ports timeout threads
    order w :
  is_Some (net_socket net) ∨ (timeout < 0)%Q ∨
    is_Some (net_resolve net host) →
  0 < threads → completion_order (length ports) order →
  ∃ results w',
    scan_ports net host ports timeout threads order w = (Ret results, w') ∧
    (∀ port, port ∈ ports → results !! port = Some false) ∧
    format_port_results host results =
      [nl +:+ "❌ No open ports found on " +:+ host +:+ nl].
Proof.
  intros Hfail Hthreads Horder.
  assert (∀ port w1, (scan_port net host port timeout w1).1 = Ret false)
    as Hfalse.
  { intros port w1. rewrite scan_port_value.
    destruct Hfail as [[e He]|[Ht|[e He]]].
    - by rewrite He.
    - destruct (timeout_refused_out timeout) as [e He]; [by left|].
      rewrite He. by destruct (net_socket net).
    - rewrite He. by destruct (net_socket net), (timeout_refused timeout). }
  destruct (scan_ports_with_dom (λ port, scan_port net host port timeout)
              ports threads order w Hthreads Horder)
    as (results & w' & Hrun & Hdom & _).
  pose proof (scan_ports_with_lookup _ (λ _, Ret false) _ _ _ _ _ _
                Hfalse Horder Hrun) as Hlook.
  cbn [recorded] in Hlook.
  exists results, w'. split; [done|]. split; [done|].
  destruct (format_port_results_for host results (λ _, False))
    as (open_list & _ & Hin & Hout).
  { intros port. split; [|done]. intros Hp.
    assert (port ∈ ports) as Hports.
    { apply (elem_of_list_to_set (C := gset Z)). rewrite <- Hdom.
      apply elem_of_dom. eauto. }
    rewrite (Hlook _ Hports) in Hp. done. }
  rewrite Hout. rewrite decide_True; [done|].
  apply elem_of_nil_inv. intros port Hport. by apply Hin in Hport.
Qed.

Lemma failed_scan_reports_no_open_ports_witness :
  ∃ results w',
    scan_ports lan "no.such.host" [443; 80; 443] 2 100 [2; 0; 1]%nat w0
      = (Ret results, w') ∧
    (∀ port, port ∈ [443; 80; 443] → results !! port = Some false) ∧
    format_port_results "no.such.host" results =
      [nl +:+ "❌ No open ports found on " +:+ "no.such.host" +:+ nl].
Proof.
  apply failed_scan_reports_no_open_ports; [|lia|].
  - right; right. by eexists.
  - unfold completion_order. apply (bool_decide_unpack _). by vm_compute.
Defined.

(** ** Layout of a row *)

Lemma string_length_append s t :
  String.length (s +:+ t) = (String.length s + String.length t)%nat.
Proof.
  induction s as [|c s IH]; [done|].
  change (String c s +:+ t) with (String c (s +:+ t)).
  cbn [String.length]. by rewrite IH.
Qed.

Lemma string_append_assoc s t u : (s +:+ t) +:+ u = s +:+ t +:+ u.
Proof.
  induction s as [|c s IH]; [done|].
  change ((String c s +:+ t) +:+ u) with (String c ((s +:+ t) +:+ u)).
  by rewrite IH.
Qed.

Lemma length_pretty_N_go (k : nat) (x : N) s :
  (x < 10 ^ N.of_nat k)%N →
  (String.length (pretty_N_go x s) ≤ k + String.length s)%nat.
Proof.
  revert x s. induction k as [|k IH]; intros x s Hx.
  - assert (x = 0%N) as -> by (cbn in Hx; lia). by rewrite pretty_N_go_0.
  - destruct (decide (x = 0%N)) as [->|Hne].
    { rewrite pretty_N_go_0. lia. }
    rewrite pretty_N_go_step by lia.
    etrans; [apply IH|cbn; lia].
    apply N.Div0.div_lt_upper_bound.
    rewrite Nat2N.inj_succ, N.pow_succ_r' in Hx. lia.
Qed.

Lemma length_pretty_port (port : Z) :
  0 ≤ port ≤ 65535 → (1 ≤ String.length (pretty port) ≤ 5)%nat.
Proof.
  intros Hport. destruct port as [|p|p]; [cbn; lia| |lia].
  change (pretty (Z.pos p)) with (pretty (N.pos p)).
  unfold pretty, pretty_N. rewrite decide_False by done. split.
  - pose proof (pretty_N_go_nonempty (N.pos p) EmptyString) as Hne.
    destruct (pretty_N_go (N.pos p) EmptyString); [|cbn; lia].
    exfalso. apply Hne; [left; lia|done].
  - pose proof (length_pretty_N_go 5 (N.pos p) EmptyString) as Hlen.
    cbn [String.length] in Hlen. rewrite Nat.add_0_r in Hlen.
    apply Hlen. change (10 ^ N.of_nat 5)%N with 100000%N. lia.
Qed.

(** X16.  In the row of a port in 0-65535 the number is followed by
    blanks, at least five, that bring the service name to the eleventh
    column. *)
Theorem port_row_aligned (port : Z) :
  0 ≤ port ≤ 65535 →
  ∃ k : nat,
    port_row port =
      pretty port +:+ repeat_char " " k +:+ service_name port ∧
    (String.length (pretty port) + k = 10)%nat ∧ (5 ≤ k)%nat.
Proof.
  intros Hport. pose proof (length_pretty_port port Hport) as Hlen.
  exists (10 - String.length (pretty port))%nat.
  split; [|lia]. unfold port_row, ljust. apply string_append_assoc.
Qed.

Lemma port_row_aligned_witness :
  ∃ k : nat,
    port_row 8080 =
      pretty 8080%Z +:+ repeat_char " " k +:+ service_name 8080 ∧
    (String.length (pretty 8080%Z) + k = 10)%nat ∧ (5 ≤ k)%nat.
Proof. apply port_row_aligned. lia. Defined.
